(** * with-refresh-token: the cookie propagator and the middleware composer

    A shallow embedding of [src/index.ts].  The file exports two functions,
    [applyCookiesOnNextResponse] and [getMiddleware]; both are thin layers
    over the host framework (the [Headers] class of the Fetch standard, the
    cookie jars of [@edge-runtime/cookies] and [NextResponse.next] of
    [next/server]).  The framework objects the two functions touch are
    modelled first, as far as the two functions use them; the functions
    themselves follow, statement by statement.

    Objects that the code shares by reference (the header sets of the
    request, of the response and of the derived copy) live in a heap, so that
    writing through one reference is visible through every alias. *)

From Stdlib Require Import String Ascii List Bool Arith Lia.
From Stdlib Require OrderedTypeEx Sorted.
From stdpp Require Import base list strings.

Import ListNotations.
Local Open Scope string_scope.
Local Open Scope list_scope.

(** ** The [Headers] class *)

Module Headers.

(** A header list in the sense of the Fetch standard: name/value pairs in
    insertion order, a name possibly occurring several times (after
    [append]).  Names are kept in the lower-case form in which the class
    stores and yields them. *)
Abbreviation t := (list (string * string)) (only parsing).

Definition values (h : t) (name : string) : list string :=
  map snd (List.filter (fun p => String.eqb (fst p) name) h).

(** [get]: the values of the name joined by a comma and a space, [null]
    when the name is absent. *)
Definition get (h : t) (name : string) : option string :=
  match values h name with
  | [] => None
  | vs => Some (String.concat ", " vs)
  end.

Definition delete (h : t) (name : string) : t :=
  List.filter (fun p => negb (String.eqb (fst p) name)) h.

(** [set]: the first header of that name takes the value and the others
    are removed; an absent name is appended. *)
Fixpoint set (h : t) (name value : string) : t :=
  match h with
  | [] => [(name, value)]
  | (n, v) :: rest =>
      if String.eqb n name then (name, value) :: delete rest name
      else (n, v) :: set rest name value
  end.

Definition getSetCookie (h : t) : list string := values h "set-cookie".

(** Iteration ([forEach], [for ... of], and the copy constructor) goes
    through the names sorted and without repetition, the values of a name
    combined as in [get]; only [set-cookie] keeps one entry per value. *)
Fixpoint insert_sorted (name : string) (names : list string) : list string :=
  match names with
  | [] => [name]
  | n :: rest =>
      if String.eqb name n then names
      else if String.ltb name n then name :: names
      else n :: insert_sorted name rest
  end.

Definition sorted_names (h : t) : list string :=
  fold_right insert_sorted [] (map fst h).

Definition entries_of (h : t) (name : string) : list (string * string) :=
  if String.eqb name "set-cookie"
  then map (fun v => (name, v)) (values h name)
  else match get h name with
       | Some v => [(name, v)]
       | None => []
       end.

Definition entries (h : t) : list (string * string) :=
  flat_map (entries_of h) (sorted_names h).

(** [new Headers(init)] with a [Headers] as [init] appends every entry of
    the iteration to an empty list. *)
Definition copy (h : t) : t := entries h.

End Headers.

(** ** Insertion-ordered maps ([Map] of JavaScript), keyed by strings *)

Module JsMap.

Abbreviation t V := (list (string * V)) (only parsing).

Fixpoint get {V} (m : t V) (k : string) : option V :=
  match m with
  | [] => None
  | (k', v) :: rest => if String.eqb k' k then Some v else get rest k
  end.

(** [set] keeps the position of a key that is already there. *)
Fixpoint set {V} (m : t V) (k : string) (v : V) : t V :=
  match m with
  | [] => [(k, v)]
  | (k', v') :: rest =>
      if String.eqb k' k then (k, v) :: rest else (k', v') :: set rest k v
  end.

Definition keys {V} (m : t V) : list string := map fst m.
Definition values {V} (m : t V) : list V := map snd m.

End JsMap.

(** ** Cookies *)

(** A cookie as [ResponseCookies] hands it out: the name, the value and the
    attributes ([Path], [Max-Age], ...), which no code of this package
    reads. *)
Record ResponseCookie := {
  name : string;
  value : string;
  attributes : list (string * string)
}.

Record RequestCookie := {
  rc_name : string;
  rc_value : string
}.

(** The text-level functions of the cookie library: they are not part of
    this package and enter as parameters. *)
Class CookieCodec := {
  parseCookie : string -> list (string * string);
  parseSetCookie : string -> option ResponseCookie;
  encodeURIComponent : string -> string
}.

(** ** The heap of header sets *)

Abbreviation ref := nat (only parsing).
Abbreviation Heap := (list Headers.t) (only parsing).

Definition deref (h : Heap) (r : ref) : Headers.t := default [] (h !! r).

Definition alloc (h : Heap) (hs : Headers.t) : ref * Heap :=
  (length h, h ++ [hs]).

(** [headers.set(name, value)] on the object behind a reference. *)
Definition set_header (r : ref) (name value : string) (h : Heap) : Heap :=
  <[r := Headers.set (deref h r) name value]> h.

(** A request and a response each own one [Headers] object; the code of this
    package reads and writes nothing else of them. *)
Record NextRequest := { req_headers : ref }.
Record NextResponse := { res_headers : ref }.
Inductive NextFetchEvent := FetchEvent (id : nat).

(** ** The cookie jars of [@edge-runtime/cookies] *)

Section Jars.
Context {codec : CookieCodec}.

(** [new ResponseCookies(headers)] parses every [Set-Cookie] line once, at
    construction, into a map keyed by the cookie's name. *)
Definition ResponseCookies_parsed (hs : Headers.t) : JsMap.t ResponseCookie :=
  fold_left
    (fun m line =>
       match parseSetCookie line with
       | Some c => JsMap.set m (name c) c
       | None => m
       end)
    (Headers.getSetCookie hs) [].

Definition ResponseCookies_getAll (hs : Headers.t) : list ResponseCookie :=
  JsMap.values (ResponseCookies_parsed hs).

(** A [RequestCookies] object: its parsed map and the reference to the
    header set it was built on and writes back to. *)
Record RequestCookies := {
  jar_parsed : JsMap.t RequestCookie;
  jar_headers : ref
}.

Definition RequestCookies_new (r : ref) (h : Heap) : RequestCookies :=
  {| jar_parsed :=
       match Headers.get (deref h r) "cookie" with
       | Some line =>
           if String.eqb line "" then []
           else fold_left
                  (fun m '(n, v) => JsMap.set m n {| rc_name := n; rc_value := v |})
                  (parseCookie line) []
       | None => []
       end;
     jar_headers := r |}.

Definition stringifyCookie (c : RequestCookie) : string :=
  rc_name c ++ "=" ++ encodeURIComponent (rc_value c).

Definition cookie_line (m : JsMap.t RequestCookie) : string :=
  String.concat "; " (map stringifyCookie (JsMap.values m)).

(** [jar.set(cookie)] with one argument: the name and the value of the
    cookie enter the map and the [cookie] header is rewritten from the
    whole map. *)
Definition RequestCookies_set (jar : RequestCookies) (c : ResponseCookie)
    (h : Heap) : RequestCookies * Heap :=
  let m := JsMap.set (jar_parsed jar) (name c)
                     {| rc_name := name c; rc_value := value c |} in
  ({| jar_parsed := m; jar_headers := jar_headers jar |},
   set_header (jar_headers jar) "cookie" (cookie_line m) h).

Definition RequestCookies_get (jar : RequestCookies) (n : string) : option string :=
  option_map rc_value (JsMap.get (jar_parsed jar) n).

End Jars.

(** ** [NextResponse.next] *)

Definition override_headers : string := "x-middleware-override-headers".
Definition request_prefix : string := "x-middleware-request-".

(** [handleMiddlewareField]: with [init.request.headers] given, every entry
    of it is written under the request prefix and the names, joined by
    commas, under the override marker. *)
Definition handleMiddlewareField (request_headers : option Headers.t)
    (headers : Headers.t) : Headers.t :=
  match request_headers with
  | None => headers
  | Some rh =>
      let es := Headers.entries rh in
      let headers' :=
        fold_left (fun acc '(key, v) => Headers.set acc (request_prefix ++ key) v)
                  es headers in
      Headers.set headers' override_headers (String.concat "," (map fst es))
  end.

(** [NextResponse.next(init)]; [init] is either absent or
    [{ request: { headers } }], the two forms the package uses.  The new
    response owns a new header set. *)
Definition NextResponse_next (request_headers : option ref) (h : Heap)
    : NextResponse * Heap :=
  let headers := Headers.set [] "x-middleware-next" "1" in
  let headers := handleMiddlewareField (option_map (deref h) request_headers) headers in
  let '(r, h') := alloc h headers in
  ({| res_headers := r |}, h').

(** ** [applyCookiesOnNextResponse] *)

Section Propagator.
Context {codec : CookieCodec}.

Definition is_routing_header (key : string) : bool :=
  String.eqb key override_headers || String.prefix request_prefix key.

(** Lines 33 to 37: the jar of the response, the copy of the request's
    headers, the jar on the copy, and every cookie of the response set on
    that jar. *)
Definition mergeCookies (req : NextRequest) (res : NextResponse) (h : Heap)
    : RequestCookies * Heap :=
  let outgoingCookies := ResponseCookies_getAll (deref h (res_headers res)) in
  let '(incomingHeaders, h1) := alloc h (Headers.copy (deref h (req_headers req))) in
  let incomingCookies := RequestCookies_new incomingHeaders h1 in
  fold_left (fun '(jar, hp) cookie => RequestCookies_set jar cookie hp)
            outgoingCookies (incomingCookies, h1).

(** Lines 43 to 50: the routing headers of [nextResponseHeaders] are set on
    the response. *)
Definition copyRoutingHeaders (nextResponseHeaders : Headers.t)
    (res : NextResponse) (h : Heap) : Heap :=
  fold_left
    (fun hp '(key, v) =>
       if is_routing_header key then set_header (res_headers res) key v hp
       else hp)
    (Headers.entries nextResponseHeaders) h.

Definition applyCookiesOnNextResponse (req : NextRequest) (res : NextResponse)
    (h : Heap) : Heap :=
  let '(incomingCookies, h2) := mergeCookies req res h in
  let '(nextResponse, h3) := NextResponse_next (Some (jar_headers incomingCookies)) h2 in
  let nextResponseHeaders := deref h3 (res_headers nextResponse) in
  copyRoutingHeaders nextResponseHeaders res h3.

End Propagator.

(** A codec for cookie lines whose names and values need no escaping; it
    serves to run the definitions on concrete requests. *)
Module PlainCodec.

Fixpoint split_at (sep : ascii) (s : string) : string * option string :=
  match s with
  | EmptyString => (EmptyString, None)
  | String c rest =>
      if Ascii.eqb c sep then (EmptyString, Some rest)
      else let '(a, b) := split_at sep rest in (String c a, b)
  end.

Fixpoint drop_spaces (s : string) : string :=
  match s with
  | String " " rest => drop_spaces rest
  | _ => s
  end.

Fixpoint pieces (fuel : nat) (s : string) : list string :=
  match fuel with
  | O => []
  | S fuel' =>
      match split_at ";" s with
      | (a, None) => [a]
      | (a, Some rest) => a :: pieces fuel' (drop_spaces rest)
      end
  end.

Definition pair_of (piece : string) : string * string :=
  match split_at "=" piece with
  | (k, Some v) => (k, v)
  | (k, None) => (k, "true")
  end.

Definition parse (line : string) : list (string * string) :=
  map pair_of (List.filter (fun p => negb (String.eqb p "")) (pieces (S (String.length line)) line)).

Definition parseSet (line : string) : option ResponseCookie :=
  match parse line with
  | [] => None
  | (n, v) :: attrs => Some {| name := n; value := v; attributes := attrs |}
  end.

#[export] Instance codec : CookieCodec :=
  {| parseCookie := parse; parseSetCookie := parseSet; encodeURIComponent := fun s => s |}.

End PlainCodec.

(** ** Callbacks, exceptions and the call log *)

Record TokenPair := {
  accessToken : string;
  refreshToken : string
}.

(** What a [throw] or a rejected promise carries ([unknown] in the source):
    an [Error] with its message, or a [Response] used as an error. *)
Inductive Thrown :=
| JsError (message : string)
| ThrownResponse (r : NextResponse).

Inductive Outcome (A : Type) :=
| Return (a : A)
| Raise (e : Thrown).
Arguments Return {A} a.
Arguments Raise {A} e.

(** A callback is caller-supplied code: it sees the heap, may write to it,
    and either returns or throws.  For the awaited [fetchTokenPair], [Return]
    is a promise that resolves and [Raise] one that rejects (or a throw before
    the promise is made); the [await] turns both into the same exception. *)
Definition Callback (A : Type) := Heap -> Outcome A * Heap.

(** [NextMiddleware]; [None] is the nullish result that line 76 tests for. *)
Definition NextMiddleware :=
  NextRequest -> NextResponse -> NextFetchEvent -> Callback (option NextResponse).

(** [GetMiddlewareOptions]; [onError] is optional, and its result is a
    response or nothing. *)
Record GetMiddlewareOptions := {
  shouldRefresh : NextRequest -> Callback bool;
  fetchTokenPair : NextRequest -> Callback TokenPair;
  onSuccess : NextResponse -> TokenPair -> Callback unit;
  onError : option (NextRequest -> NextResponse -> Thrown -> Callback (option NextResponse))
}.

(** The calls the composed handler makes, with their arguments, in order. *)
Inductive Event :=
| CallShouldRefresh (req : NextRequest)
| CallFetchTokenPair (req : NextRequest)
| CallOnSuccess (res : NextResponse) (tokenPair : TokenPair)
| CallOnError (req : NextRequest) (res : NextResponse) (error : Thrown)
| CallPropagate (req : NextRequest) (res : NextResponse)
| CallNext (req : NextRequest) (res : NextResponse) (event : NextFetchEvent).

Record State := {
  heap : Heap;
  calls : list Event
}.

(** The monad of the handler's body: state and exceptions. *)
Definition M (A : Type) := State -> Outcome A * State.

Definition ret {A} (a : A) : M A := fun s => (Return a, s).

Definition bind {A B} (m : M A) (k : A -> M B) : M B :=
  fun s =>
    match m s with
    | (Return a, s') => k a s'
    | (Raise e, s') => (Raise e, s')
    end.

(** [try { body } catch (error) { handler }]: the writes of the body up to
    the throw stay. *)
Definition try_catch {A} (body : M A) (handler : Thrown -> M A) : M A :=
  fun s =>
    match body s with
    | (Return a, s') => (Return a, s')
    | (Raise e, s') => handler e s'
    end.

Notation "x <- m ;; k" := (bind m (fun x => k))
  (at level 60, m at next level, right associativity).
Notation "m ;;; k" := (bind m (fun _ => k))
  (at level 60, right associativity).

(** A call of a callback: logged, then run on the heap. *)
Definition invoke {A} (ev : Event) (c : Callback A) : M A :=
  fun s =>
    let '(out, h') := c (heap s) in
    (out, {| heap := h'; calls := calls s ++ [ev] |}).

(** ** [getMiddleware] *)

Section Composer.
Context {codec : CookieCodec}.

(** Line 62: [NextResponse.next()]. *)
Definition newResponse : M NextResponse :=
  fun s =>
    let '(res, h') := NextResponse_next None (heap s) in
    (Return res, {| heap := h'; calls := calls s |}).

(** Lines 66 and 67, the body of the [try]. *)
Definition guardedRefresh (options : GetMiddlewareOptions)
    (req : NextRequest) (res : NextResponse) : M unit :=
  tokenPair <- invoke (CallFetchTokenPair req) (fetchTokenPair options req) ;;
  invoke (CallOnSuccess res tokenPair) (onSuccess options res tokenPair).

(** Line 69: [onError?.(req, res, error)]. *)
Definition callOnError (options : GetMiddlewareOptions)
    (req : NextRequest) (res : NextResponse) (error : Thrown)
    : M (option NextResponse) :=
  match onError options with
  | Some f => invoke (CallOnError req res error) (f req res error)
  | None => ret None
  end.

(** Lines 64 to 72.  The result is the response that line 70 returns from
    the handler, or [None] when control reaches line 74. *)
Definition refreshStep (options : GetMiddlewareOptions)
    (req : NextRequest) (res : NextResponse) : M (option NextResponse) :=
  refresh <- invoke (CallShouldRefresh req) (shouldRefresh options req) ;;
  if refresh : bool then
    try_catch
      (guardedRefresh options req res ;;; ret None)
      (fun error => callOnError options req res error)
  else ret None.

(** Line 74. *)
Definition propagate (req : NextRequest) (res : NextResponse) : M unit :=
  fun s =>
    (Return tt,
     {| heap := applyCookiesOnNextResponse req res (heap s);
        calls := calls s ++ [CallPropagate req res] |}).

(** Line 76: [middlewareFn?.(req, res, event) ?? res]. *)
Definition forward (middlewareFn : option NextMiddleware)
    (req : NextRequest) (res : NextResponse) (event : NextFetchEvent)
    : M NextResponse :=
  result <- match middlewareFn with
            | Some f => invoke (CallNext req res event) (f req res event)
            | None => ret None
            end ;;
  ret (match result with Some r => r | None => res end).

Definition getMiddleware (options : GetMiddlewareOptions)
    (middlewareFn : option NextMiddleware)
    (req : NextRequest) (event : NextFetchEvent) : M NextResponse :=
  res <- newResponse ;;
  next <- refreshStep options req res ;;
  match next with
  | Some next => ret next
  | None => propagate req res ;;; forward middlewareFn req res event
  end.

(** One invocation of the composed handler on a heap, its log empty at the
    start. *)
Definition handle (options : GetMiddlewareOptions)
    (middlewareFn : option NextMiddleware)
    (req : NextRequest) (event : NextFetchEvent) (h : Heap)
    : Outcome NextResponse * State :=
  getMiddleware options middlewareFn req event {| heap := h; calls := [] |}.

(** Lines 62 to 74 on their own: [Some next] when line 70 returned,
    [None] when line 76 is about to run. *)
Definition untilForward (options : GetMiddlewareOptions)
    (req : NextRequest) : M (option NextResponse) :=
  res <- newResponse ;;
  next <- refreshStep options req res ;;
  match next with
  | Some next => ret (Some next)
  | None => propagate req res ;;; ret None
  end.

End Composer.

(** The pass-through response that an invocation started on heap [h] creates
    at line 62, and the heap right after. *)
Definition passThrough (h : Heap) : NextResponse := {| res_headers := length h |}.
Definition started (h : Heap) : Heap := h ++ [[("x-middleware-next", "1")]].

(** ** Auxiliary definitions for the statements *)

(** The map of the request jar after the cookies [cs] were set on it. *)
Definition merged (cs : list ResponseCookie) (m : JsMap.t RequestCookie)
    : JsMap.t RequestCookie :=
  fold_left
    (fun m c => JsMap.set m (name c) {| rc_name := name c; rc_value := value c |})
    cs m.

(** Both loops over header entries (in [handleMiddlewareField] and at lines
    43 to 50) set, for each entry, at most one header named after the
    entry's key. *)
Definition set_each (f : string -> option string) (es : list (string * string))
    (acc : Headers.t) : Headers.t :=
  fold_left
    (fun acc '(k, v) => match f k with Some n => Headers.set acc n v | None => acc end)
    es acc.

Definition under_prefix (k : string) : option string := Some (request_prefix ++ k)%string.

Definition routing_only (k : string) : option string :=
  if String.eqb k override_headers || String.prefix request_prefix k
  then Some k else None.

(** The response's routing headers as line 39 computes them from the
    derived header set [d]. *)
Definition routing_of (d : Headers.t) : Headers.t :=
  handleMiddlewareField (Some d) [("x-middleware-next", "1")].

(** The derived header set: the copy of the request's headers, its
    [cookie] header rewritten when the response had cookies. *)
Definition derivedHeaders {codec : CookieCodec} (req : NextRequest) (res : NextResponse) (h : Heap)
    : Headers.t :=
  deref (snd (mergeCookies req res h)) (length h).

Definition is_refresh_call (e : Event) : bool :=
  match e with
  | CallFetchTokenPair _ | CallOnSuccess _ _ => true
  | _ => false
  end.

Definition is_onSuccess_call (e : Event) : bool :=
  match e with
  | CallOnSuccess _ _ => true
  | _ => false
  end.

Definition is_pipeline_call (e : Event) : bool :=
  match e with
  | CallPropagate _ _ | CallNext _ _ _ => true
  | _ => false
  end.

(** A callback keeps the object behind [r]: it stays allocated and holds
    what it held. *)
Definition keeps (r : ref) {A} (c : Callback A) : Prop :=
  forall h : Heap,
    r < length h -> r < length (snd (c h)) /\ snd (c h) !! r = h !! r.

(** None of the caller's callbacks, called with the request and the
    response [res], writes to the request's header set. *)
Definition callbacks_keep (options : GetMiddlewareOptions)
    (middlewareFn : option NextMiddleware) (req : NextRequest)
    (res : NextResponse) (event : NextFetchEvent) : Prop :=
  keeps (req_headers req) (shouldRefresh options req) /\
  keeps (req_headers req) (fetchTokenPair options req) /\
  (forall tp, keeps (req_headers req) (onSuccess options res tp)) /\
  (forall f e, onError options = Some f -> keeps (req_headers req) (f req res e)) /\
  (forall f, middlewareFn = Some f -> keeps (req_headers req) (f req res event)).

(** Unfolding of the handler's body. *)
Ltac step_handler :=
  unfold handle, getMiddleware, untilForward, refreshStep, guardedRefresh,
         callOnError, forward, propagate, newResponse, try_catch, bind, ret,
         invoke, NextResponse_next, alloc, passThrough, started in *;
  cbn [heap calls handleMiddlewareField option_map Headers.set fst snd app] in *.

(** The object behind [r] is allocated in [s] and holds what it held in
    [h0]. *)
Definition same_at (r : ref) (h0 : Heap) (s : State) : Prop :=
  r < length (heap s) /\ heap s !! r = h0 !! r.

Definition keeps_M (r : ref) {A} (m : M A) : Prop :=
  forall (h0 : Heap) (s : State), same_at r h0 s -> same_at r h0 (snd (m s)).





(** The request jar as line 35 builds it, before the loop of line 37. *)
Definition incomingJar {codec : CookieCodec} (req : NextRequest) (h : Heap)
    : RequestCookies :=
  RequestCookies_new (length h) (h ++ [Headers.copy (deref h (req_headers req))]).


(** ** Concrete requests and configurations *)

Module Demo.
Import PlainCodec.

Definition req : NextRequest := {| req_headers := 0 |}.
Definition event : NextFetchEvent := FetchEvent 7.

(** One object: the header set of the request. *)
Definition heap0 : Heap := [[("host", "example.com")]].

(** A request and a response on which the cookies [a] and [b] were set. *)
Definition res : NextResponse := {| res_headers := 1 |}.
Definition heapAB : Heap :=
  [[("host", "example.com")];
   [("x-middleware-next", "1"); ("set-cookie", "a=1; Path=/"); ("set-cookie", "b=2; Path=/")]].

(** The same request and a response without cookies. *)
Definition heapPlain : Heap :=
  [[("host", "example.com")]; [("x-middleware-next", "1")]].

Definition tokens : TokenPair := {| accessToken := "AT2"; refreshToken := "RT2" |}.

(** A callback in the manner of the README's [onSuccess]: one [Set-Cookie]
    line per token, appended to the header list of the response.  (The
    framework's [res.cookies.set] writes more: an [Expires] attribute and a
    bookkeeping header of its own.) *)
Definition append_cookie (res : NextResponse) (n v : string) (h : Heap) : Heap :=
  <[res_headers res :=
      deref h (res_headers res)
      ++ [("set-cookie", n ++ "=" ++ v ++ "; Path=/; Max-Age=604800")%string]]> h.

Definition setTokens (res : NextResponse) (tp : TokenPair) : Callback unit :=
  fun h =>
    (Return tt,
     append_cookie res "refresh-token" (refreshToken tp)
       (append_cookie res "access-token" (accessToken tp) h)).

Definition never : NextRequest -> Callback bool := fun _ h => (Return false, h).
Definition always : NextRequest -> Callback bool := fun _ h => (Return true, h).
Definition fetchOk : NextRequest -> Callback TokenPair := fun _ h => (Return tokens, h).
Definition fetchFails : NextRequest -> Callback TokenPair :=
  fun _ h => (Raise (JsError "network"), h).

(** A configuration in the manner of the README's. *)
Definition readme : GetMiddlewareOptions :=
  {| shouldRefresh := always; fetchTokenPair := fetchOk;
     onSuccess := setTokens; onError := None |}.

Definition noRefresh : GetMiddlewareOptions :=
  {| shouldRefresh := never; fetchTokenPair := fetchOk;
     onSuccess := setTokens; onError := None |}.

(** [onSuccess] throws. *)
Definition throwingOnSuccess : GetMiddlewareOptions :=
  {| shouldRefresh := always; fetchTokenPair := fetchOk;
     onSuccess := fun _ _ h => (Raise (JsError "boom"), h); onError := None |}.

Definition failingFetch : GetMiddlewareOptions :=
  {| shouldRefresh := always; fetchTokenPair := fetchFails;
     onSuccess := setTokens; onError := None |}.

(** [onError] answers with a redirect, a response of its own. *)
Definition toLogin
    : NextRequest -> NextResponse -> Thrown -> Callback (option NextResponse) :=
  fun _ _ _ h =>
    (Return (Some {| res_headers := length h |}), h ++ [[("location", "/login")]]).

Definition redirecting : GetMiddlewareOptions :=
  {| shouldRefresh := always; fetchTokenPair := fetchFails;
     onSuccess := setTokens; onError := Some toLogin |}.

Definition returnsRes : NextMiddleware := fun _ res _ h => (Return (Some res), h).

(** A next-stage handler that answers with a response of its own. *)
Definition returnsOther : NextMiddleware :=
  fun _ _ _ h =>
    (Return (Some {| res_headers := length h |}), h ++ [[("x-handled", "1")]]).

Definition returnsNothing : NextMiddleware := fun _ _ _ h => (Return None, h).

(** More configurations: a decision that throws, an [onError] that throws,
    one that returns nothing, and a next-stage handler that throws. *)
Definition undecided : GetMiddlewareOptions :=
  {| shouldRefresh := fun _ h => (Raise (JsError "decide"), h);
     fetchTokenPair := fetchOk; onSuccess := setTokens; onError := None |}.

Definition rethrows
    : NextRequest -> NextResponse -> Thrown -> Callback (option NextResponse) :=
  fun _ _ _ h => (Raise (JsError "handler"), h).

Definition failingHard : GetMiddlewareOptions :=
  {| shouldRefresh := always; fetchTokenPair := fetchFails;
     onSuccess := setTokens; onError := Some rethrows |}.

Definition logsOnly
    : NextRequest -> NextResponse -> Thrown -> Callback (option NextResponse) :=
  fun _ _ _ h => (Return None, h).

Definition logging : GetMiddlewareOptions :=
  {| shouldRefresh := always; fetchTokenPair := fetchFails;
     onSuccess := setTokens; onError := Some logsOnly |}.

Definition nextThrows : NextMiddleware :=
  fun _ _ _ h => (Raise (JsError "next"), h).

(** A request that comes with the cookies [x] and [a], and a response on
    which [a] was set anew. *)
Definition heapCookie : Heap :=
  [[("cookie", "x=9; a=0"); ("host", "example.com")];
   [("x-middleware-next", "1"); ("set-cookie", "a=1; Path=/")]].

End Demo.

(** * Properties *)

(** ** Header lists *)

Module HeadersFacts.
Import Headers.

Lemma values_delete_ne (h : t) (k n : string) :
  n <> k -> values (delete h k) n = values h n.
Proof.
  intros Hne. unfold values, delete.
  induction h as [|[k' v'] rest IH]; simpl; [reflexivity|].
  destruct (String.eqb_spec k' k) as [->|Hk]; simpl.
  - destruct (String.eqb_spec k n) as [->|_]; [congruence|]. exact IH.
  - destruct (String.eqb k' n); simpl; [f_equal|]; exact IH.
Qed.

Lemma values_delete_eq (h : t) (k : string) : values (delete h k) k = [].
Proof.
  unfold values, delete.
  induction h as [|[k' v'] rest IH]; simpl; [reflexivity|].
  destruct (String.eqb_spec k' k) as [->|Hk]; simpl; [exact IH|].
  destruct (String.eqb_spec k' k); [congruence|]. exact IH.
Qed.

(** [set] leaves the values of every other name as they were. *)
Lemma values_set_ne (h : t) (k v n : string) :
  n <> k -> values (set h k v) n = values h n.
Proof.
  intros Hne.
  induction h as [|[k' v'] rest IH]; simpl.
  - unfold values; simpl. destruct (String.eqb_spec k n); [congruence|reflexivity].
  - destruct (String.eqb_spec k' k) as [->|Hk].
    + unfold values; simpl.
      destruct (String.eqb_spec k n); [congruence|].
      apply (values_delete_ne rest k n Hne).
    + unfold values in *; simpl.
      destruct (String.eqb k' n); simpl; [f_equal|]; exact IH.
Qed.

(** After [set] the name has exactly the value set. *)
Lemma values_set_eq (h : t) (k v : string) : values (set h k v) k = [v].
Proof.
  induction h as [|[k' v'] rest IH]; simpl.
  - unfold values; simpl. rewrite String.eqb_refl. reflexivity.
  - destruct (String.eqb_spec k' k) as [->|Hk].
    + unfold values; simpl. rewrite String.eqb_refl. simpl. f_equal.
      apply (values_delete_eq rest k).
    + unfold values in *; simpl.
      destruct (String.eqb_spec k' k); [congruence|]. exact IH.
Qed.

Lemma get_set_eq (h : t) (k v : string) : get (set h k v) k = Some v.
Proof. unfold get. rewrite values_set_eq. simpl. reflexivity. Qed.

Lemma get_set_ne (h : t) (k v n : string) :
  n <> k -> get (set h k v) n = get h n.
Proof. intros Hne. unfold get. rewrite values_set_ne by assumption. reflexivity. Qed.

Lemma values_nil_not_in (h : t) (n : string) :
  values h n = [] <-> ~ In n (map fst h).
Proof.
  unfold values.
  induction h as [|[k v] rest IH]; simpl; [tauto|].
  destruct (String.eqb_spec k n) as [->|Hk]; simpl.
  - split; [discriminate|]. intros H. exfalso. apply H. now left.
  - rewrite IH. split; [intros H [E|I]; [congruence|tauto] | tauto].
Qed.

Lemma insert_sorted_In (n x : string) (l : list string) :
  In x (insert_sorted n l) <-> x = n \/ In x l.
Proof.
  induction l as [|m rest IH]; simpl.
  - intuition congruence.
  - destruct (String.eqb_spec n m) as [->|Hnm]; simpl.
    + intuition congruence.
    + destruct (String.ltb n m); simpl; [intuition congruence|].
      rewrite IH. intuition congruence.
Qed.

(** The iteration visits exactly the names of the list. *)
Lemma sorted_names_In (h : t) (x : string) :
  In x (sorted_names h) <-> In x (map fst h).
Proof.
  unfold sorted_names.
  induction (map fst h) as [|n l IH]; simpl; [tauto|].
  rewrite insert_sorted_In, IH. intuition congruence.
Qed.

(** What the iteration yields for a name other than [set-cookie] is what
    [get] yields. *)
Lemma entries_get (h : t) (k v : string) :
  k <> "set-cookie" ->
  (In (k, v) (entries h) <-> get h k = Some v).
Proof.
  intros Hk. unfold entries. rewrite in_flat_map. split.
  - intros (n & Hn & Hin). unfold entries_of in Hin.
    destruct (String.eqb_spec n "set-cookie") as [->|Hn'].
    + apply in_map_iff in Hin as (x & E & _). congruence.
    + destruct (get h n) as [w|] eqn:G; simpl in Hin; [|tauto].
      destruct Hin as [E|[]]. inversion E; subst. exact G.
  - intros G. exists k. split.
    + apply sorted_names_In. apply Decidable.not_not.
      { destruct (in_dec String.string_dec k (map fst h)); [left|right]; assumption. }
      intros Hnot. apply values_nil_not_in in Hnot.
      unfold get in G. rewrite Hnot in G. discriminate.
    + unfold entries_of.
      destruct (String.eqb_spec k "set-cookie"); [congruence|].
      rewrite G. now left.
Qed.

End HeadersFacts.

(** ** Insertion-ordered maps *)

Module JsMapFacts.
Import JsMap.

Lemma map_get_set_eq {V} (m : t V) (k : string) (v : V) : get (set m k v) k = Some v.
Proof.
  induction m as [|[k' v'] rest IH]; simpl.
  - now rewrite String.eqb_refl.
  - destruct (String.eqb_spec k' k) as [->|Hk]; simpl.
    + now rewrite String.eqb_refl.
    + destruct (String.eqb_spec k' k); [congruence|exact IH].
Qed.

Lemma map_get_set_ne {V} (m : t V) (k n : string) (v : V) :
  n <> k -> get (set m k v) n = get m n.
Proof.
  intros Hne.
  induction m as [|[k' v'] rest IH]; simpl.
  - destruct (String.eqb_spec k n); [congruence|reflexivity].
  - destruct (String.eqb_spec k' k) as [->|Hk]; simpl.
    + destruct (String.eqb_spec k n); [congruence|reflexivity].
    + destruct (String.eqb k' n); [reflexivity|exact IH].
Qed.

Lemma keys_set_In {V} (m : t V) (k x : string) (v : V) :
  In x (keys (set m k v)) <-> x = k \/ In x (keys m).
Proof.
  unfold keys.
  induction m as [|[k' v'] rest IH]; simpl.
  - intuition congruence.
  - destruct (String.eqb_spec k' k) as [->|Hk]; simpl.
    + intuition congruence.
    + rewrite IH. intuition congruence.
Qed.

(** A map holds a key once. *)
Lemma keys_set_NoDup {V} (m : t V) (k : string) (v : V) :
  List.NoDup (keys m) -> List.NoDup (keys (set m k v)).
Proof.
  intros Hnd.
  induction m as [|[k' v'] rest IH]; simpl.
  - constructor; [simpl; tauto|constructor].
  - unfold keys in *. simpl in Hnd. inversion Hnd as [|? ? Hnotin Hrest]; subst.
    destruct (String.eqb_spec k' k) as [->|Hk]; simpl.
    + constructor; assumption.
    + constructor; [|apply IH; assumption].
      intros Hin. apply (keys_set_In rest k k' v) in Hin.
      destruct Hin as [E|Hin]; [congruence|]. apply Hnotin. exact Hin.
Qed.

End JsMapFacts.

(** ** The heap *)

Lemma deref_last (h : Heap) (d : Headers.t) : deref (h ++ [d]) (length h) = d.
Proof.
  unfold deref. rewrite lookup_app_r. 2: lia.
  replace (length h - length h) with 0 by lia. reflexivity.
Qed.

Lemma deref_app_l (h h' : Heap) (r : ref) :
  r < length h -> deref (h ++ h') r = deref h r.
Proof. intros Hr. unfold deref. rewrite lookup_app_l by exact Hr. reflexivity. Qed.

Lemma set_header_last (h : Heap) (d : Headers.t) (n v : string) :
  set_header (length h) n v (h ++ [d]) = h ++ [Headers.set d n v].
Proof.
  unfold set_header. rewrite deref_last.
  rewrite insert_app_r_alt by lia.
  replace (length h - length h) with 0 by lia. reflexivity.
Qed.

Lemma set_header_other (r r' : ref) (n v : string) (h : Heap) :
  r' <> r -> set_header r n v h !! r' = h !! r'.
Proof. intros Hne. unfold set_header. apply list_lookup_insert_ne. congruence. Qed.

Lemma deref_set_header (r : ref) (n v : string) (h : Heap) :
  r < length h -> deref (set_header r n v h) r = Headers.set (deref h r) n v.
Proof.
  intros Hr. unfold set_header, deref at 1.
  rewrite list_lookup_insert_eq by exact Hr. reflexivity.
Qed.

(** ** The cookie propagator *)

Section PropagatorFacts.
Context {codec : CookieCodec}.

Lemma delete_delete (h : Headers.t) (k : string) :
  Headers.delete (Headers.delete h k) k = Headers.delete h k.
Proof.
  unfold Headers.delete. induction h as [|[a b] rest IH]; simpl; [reflexivity|].
  destruct (String.eqb a k) eqn:E; simpl; [exact IH|].
  rewrite E. simpl. f_equal. exact IH.
Qed.

(** A second [set] of a name overwrites the first. *)
Lemma set_set (h : Headers.t) (k x y : string) :
  Headers.set (Headers.set h k x) k y = Headers.set h k y.
Proof.
  induction h as [|[k' v'] rest IH]; simpl.
  - now rewrite String.eqb_refl.
  - destruct (String.eqb_spec k' k) as [->|Hk]; simpl.
    + rewrite String.eqb_refl. f_equal. apply delete_delete.
    + destruct (String.eqb_spec k' k); [congruence|]. f_equal. exact IH.
Qed.

(** The loop of line 37 on a jar whose header set is the last object of
    the heap: only that object is written, and its [cookie] header is the
    line of the final map. *)
Lemma merge_loop (h : Heap) (cs : list ResponseCookie) :
  forall (m : JsMap.t RequestCookie) (d : Headers.t),
    fold_left (fun '(jar, hp) cookie => RequestCookies_set jar cookie hp) cs
      ({| jar_parsed := m; jar_headers := length h |}, h ++ [d])
    = ({| jar_parsed := merged cs m; jar_headers := length h |},
       h ++ [match cs with
             | [] => d
             | _ => Headers.set d "cookie" (cookie_line (merged cs m))
             end]).
Proof.
  induction cs as [|c rest IH]; intros m d; simpl; [reflexivity|].
  unfold RequestCookies_set at 2. simpl.
  rewrite set_header_last. rewrite IH.
  destruct rest as [|c' rest']; [reflexivity|].
  rewrite set_set. reflexivity.
Qed.

Lemma merged_get_other (cs : list ResponseCookie) (m : JsMap.t RequestCookie) (n : string) :
  ~ In n (map name cs) -> JsMap.get (merged cs m) n = JsMap.get m n.
Proof.
  revert m. induction cs as [|c rest IH]; intros m Hn; simpl; [reflexivity|].
  simpl in Hn. rewrite IH by tauto.
  apply JsMapFacts.map_get_set_ne. intros E. apply Hn. left. congruence.
Qed.

(** Every cookie of a list without repeated names is in the merged map. *)
Lemma merged_get (cs : list ResponseCookie) (m : JsMap.t RequestCookie) (c : ResponseCookie) :
  List.NoDup (map name cs) -> In c cs ->
  JsMap.get (merged cs m) (name c)
  = Some {| rc_name := name c; rc_value := value c |}.
Proof.
  revert m. induction cs as [|c0 rest IH]; intros m Hnd Hin; simpl in *; [tauto|].
  inversion Hnd as [|? ? Hnotin Hrest]; subst.
  destruct Hin as [->|Hin].
  - rewrite merged_get_other by exact Hnotin. apply JsMapFacts.map_get_set_eq.
  - now apply IH.
Qed.

(** The parsed map of a response jar: keys held once, each the name of
    its cookie. *)
Lemma ResponseCookies_parsed_wf (hs : Headers.t) :
  List.NoDup (JsMap.keys (ResponseCookies_parsed hs)) /\
  (forall k c, In (k, c) (ResponseCookies_parsed hs) -> name c = k).
Proof.
  unfold ResponseCookies_parsed.
  generalize (Headers.getSetCookie hs). intros lines.
  assert (Hgen : forall (m : JsMap.t ResponseCookie),
             List.NoDup (JsMap.keys m) /\ (forall k c, In (k, c) m -> name c = k) ->
             let m' := fold_left
                         (fun m line => match parseSetCookie line with
                                        | Some c => JsMap.set m (name c) c
                                        | None => m
                                        end) lines m in
             List.NoDup (JsMap.keys m') /\ (forall k c, In (k, c) m' -> name c = k)).
  { induction lines as [|line rest IH]; intros m Hm; simpl; [exact Hm|].
    apply IH. destruct (parseSetCookie line) as [c0|]; [|exact Hm].
    destruct Hm as [Hnd Hnames]. split; [now apply JsMapFacts.keys_set_NoDup|].
    clear Hnd IH. induction m as [|[k' c'] m' IHm]; simpl; intros k c.
    - intros [E|[]]. now inversion E.
    - destruct (String.eqb_spec k' (name c0)) as [E|NE]; simpl.
      + intros [E'|Hin]; [now inversion E'|]. apply Hnames. now right.
      + intros [E'|Hin]; [apply Hnames; now left|].
        apply IHm; [|exact Hin]. intros k0 c1 H1. apply Hnames. now right. }
  apply (Hgen []). split; [constructor|intros k c []].
Qed.

Lemma ResponseCookies_getAll_NoDup (hs : Headers.t) :
  List.NoDup (map name (ResponseCookies_getAll hs)).
Proof.
  destruct (ResponseCookies_parsed_wf hs) as [Hnd Hnames].
  unfold ResponseCookies_getAll, JsMap.values, JsMap.keys in *.
  rewrite map_map.
  erewrite map_ext_in; [exact Hnd|].
  intros [k c] Hin. simpl. now apply Hnames.
Qed.

(** [mergeCookies] in closed form. *)
Lemma mergeCookies_eq (req : NextRequest) (res : NextResponse) (h : Heap) :
  let cs := ResponseCookies_getAll (deref h (res_headers res)) in
  let d := Headers.copy (deref h (req_headers req)) in
  let m0 := jar_parsed (RequestCookies_new (length h) (h ++ [d])) in
  mergeCookies req res h
  = ({| jar_parsed := merged cs m0; jar_headers := length h |},
     h ++ [match cs with
           | [] => d
           | _ => Headers.set d "cookie" (cookie_line (merged cs m0))
           end]).
Proof.
  intros cs d m0. unfold mergeCookies, alloc.
  fold cs. fold d.
  exact (merge_loop h cs m0 d).
Qed.

End PropagatorFacts.

Lemma set_each_frame (f : string -> option string) (es : list (string * string))
    (acc : Headers.t) (n : string) :
  (forall k v, In (k, v) es -> f k <> Some n) ->
  Headers.values (set_each f es acc) n = Headers.values acc n.
Proof.
  revert acc. unfold set_each.
  induction es as [|[k v] rest IH]; intros acc Hf; simpl; [reflexivity|].
  rewrite IH by (intros k' v' Hin; apply (Hf k' v'); now right).
  destruct (f k) as [n'|] eqn:E; [|reflexivity].
  apply HeadersFacts.values_set_ne. intros ->.
  apply (Hf k v); [now left|exact E].
Qed.

Lemma set_each_hit (f : string -> option string) (es : list (string * string))
    (acc : Headers.t) (n v : string) :
  (forall k x, In (k, x) es -> f k = Some n -> x = v) ->
  (exists k, In (k, v) es /\ f k = Some n) \/ Headers.get acc n = Some v ->
  Headers.get (set_each f es acc) n = Some v.
Proof.
  revert acc. unfold set_each.
  induction es as [|[k0 v0] rest IH]; intros acc Hv Hin; simpl.
  - destruct Hin as [(k & [] & _)|G]. exact G.
  - apply IH; [intros k x Hk Hfk; apply (Hv k x); [now right|exact Hfk]|].
    destruct (f k0) as [n0|] eqn:E0.
    + destruct (String.eqb_spec n0 n) as [->|Hne].
      * right. rewrite (Hv k0 v0 (or_introl eq_refl) E0). apply HeadersFacts.get_set_eq.
      * destruct Hin as [(k & [Eq|Hin] & Hk)|G].
        -- inversion Eq; subst. congruence.
        -- left. now exists k.
        -- right. rewrite HeadersFacts.get_set_ne by congruence. exact G.
    + destruct Hin as [(k & [Eq|Hin] & Hk)|G].
      * inversion Eq; subst. congruence.
      * left. now exists k.
      * now right.
Qed.

Lemma handleMiddlewareField_eq (rh acc : Headers.t) :
  handleMiddlewareField (Some rh) acc
  = Headers.set (set_each under_prefix (Headers.entries rh) acc)
      override_headers (String.concat "," (map fst (Headers.entries rh))).
Proof.
  unfold handleMiddlewareField, set_each, under_prefix. do 2 f_equal.
Qed.

Section CopyFacts.
Context {codec : CookieCodec}.

(** Lines 43 to 50 write to one object only, the header set of the
    response. *)
Lemma copyRoutingHeaders_eq (nh : Headers.t) (res : NextResponse) (h : Heap) :
  copyRoutingHeaders nh res h
  = <[res_headers res :=
        set_each routing_only (Headers.entries nh) (deref h (res_headers res))]> h.
Proof.
  unfold copyRoutingHeaders, set_each, routing_only, is_routing_header.
  generalize (Headers.entries nh). intros es. revert h.
  induction es as [|[k v] rest IH]; intros h; simpl.
  - unfold deref. destruct (h !! res_headers res) as [x|] eqn:E; simpl.
    + symmetry. now apply list_insert_id.
    + symmetry. apply list_insert_ge. now apply lookup_ge_None.
  - rewrite IH. destruct (String.eqb k override_headers || String.prefix request_prefix k); [|reflexivity].
    destruct (Nat.lt_ge_cases (res_headers res) (length h)) as [Hr|Hr].
    + rewrite deref_set_header by exact Hr.
      unfold set_header. now rewrite list_insert_insert_eq.
    + unfold set_header at 1 2. rewrite !(list_insert_ge h) by exact Hr. reflexivity.
Qed.

Lemma NextResponse_next_request (r : ref) (h : Heap) :
  NextResponse_next (Some r) h
  = ({| res_headers := length h |},
     h ++ [handleMiddlewareField (Some (deref h r)) [("x-middleware-next", "1")]]).
Proof. reflexivity. Qed.

(** The propagator in closed form: two objects are allocated (the derived
    copy and the header set of the [NextResponse.next] response) and one
    existing object is written, the header set of the response. *)
Lemma applyCookiesOnNextResponse_eq (req : NextRequest) (res : NextResponse) (h : Heap) :
  let h2 := snd (mergeCookies req res h) in
  let d := deref h2 (length h) in
  applyCookiesOnNextResponse req res h
  = <[res_headers res :=
        set_each routing_only (Headers.entries (routing_of d))
                 (deref (h2 ++ [routing_of d]) (res_headers res))]>
      (h2 ++ [routing_of d]).
Proof.
  unfold applyCookiesOnNextResponse.
  rewrite (mergeCookies_eq req res h). cbv zeta. cbn [snd jar_headers].
  rewrite NextResponse_next_request. cbn [res_headers].
  rewrite copyRoutingHeaders_eq. unfold routing_of.
  rewrite deref_last. reflexivity.
Qed.

End CopyFacts.

Section PropagatorEffect.
Context {codec : CookieCodec}.

Lemma mergeCookies_heap (req : NextRequest) (res : NextResponse) (h : Heap) :
  snd (mergeCookies req res h) = h ++ [derivedHeaders req res h].
Proof.
  unfold derivedHeaders. rewrite (mergeCookies_eq req res h). cbn [snd].
  now rewrite deref_last.
Qed.

(** After the propagator, the header set of the response is the old one
    with the routing headers of the derived set written onto it. *)
Lemma response_after (req : NextRequest) (res : NextResponse) (h : Heap) :
  res_headers res < length h ->
  deref (applyCookiesOnNextResponse req res h) (res_headers res)
  = set_each routing_only
      (Headers.entries (routing_of (derivedHeaders req res h)))
      (deref h (res_headers res)).
Proof.
  intros Hr. pose proof (applyCookiesOnNextResponse_eq req res h) as E.
  cbv zeta in E. rewrite E. clear E.
  fold (derivedHeaders req res h). rewrite mergeCookies_heap.
  unfold deref at 1. rewrite list_lookup_insert_eq
    by (rewrite !length_app; simpl; lia).
  simpl. f_equal. rewrite <- app_assoc. now apply deref_app_l.
Qed.

(** Every object that existed before, other than the header set of the
    response, is as it was. *)
Lemma others_after (req : NextRequest) (res : NextResponse) (h : Heap) (r : ref) :
  r < length h -> r <> res_headers res ->
  applyCookiesOnNextResponse req res h !! r = h !! r.
Proof.
  intros Hr Hne. pose proof (applyCookiesOnNextResponse_eq req res h) as E.
  cbv zeta in E. rewrite E. clear E.
  rewrite list_lookup_insert_ne by congruence.
  rewrite mergeCookies_heap, <- app_assoc. now apply lookup_app_l.
Qed.

Lemma length_after (req : NextRequest) (res : NextResponse) (h : Heap) :
  length (applyCookiesOnNextResponse req res h) = S (S (length h)).
Proof.
  pose proof (applyCookiesOnNextResponse_eq req res h) as E.
  cbv zeta in E. rewrite E. clear E.
  rewrite length_insert, mergeCookies_heap, !length_app. simpl. lia.
Qed.

Lemma routing_only_Some (k n : string) :
  routing_only k = Some n -> k = n /\ is_routing_header n = true.
Proof.
  unfold routing_only, is_routing_header.
  destruct (String.eqb k override_headers || String.prefix request_prefix k) eqn:E;
    [|discriminate].
  intros H. inversion H; subst. now split.
Qed.

Lemma routing_not_set_cookie (n : string) :
  is_routing_header n = true -> n <> "set-cookie".
Proof. intros H ->. vm_compute in H. discriminate. Qed.

(** A routing header of [nh] ends up on the header set the loop of lines
    43 to 50 writes to. *)
Lemma routing_header_copied (nh acc : Headers.t) (n v : string) :
  is_routing_header n = true ->
  Headers.get nh n = Some v ->
  Headers.get (set_each routing_only (Headers.entries nh) acc) n = Some v.
Proof.
  intros Hn G. pose proof (routing_not_set_cookie n Hn) as Hsc.
  apply set_each_hit.
  - intros k x Hin Hk. apply routing_only_Some in Hk as [-> _].
    apply HeadersFacts.entries_get in Hin; [congruence|exact Hsc].
  - left. exists n. split.
    + now apply HeadersFacts.entries_get.
    + unfold routing_only. unfold is_routing_header in Hn. now rewrite Hn.
Qed.

(** No other header is touched by that loop. *)
Lemma non_routing_header_kept (nh acc : Headers.t) (n : string) :
  is_routing_header n = false ->
  Headers.values (set_each routing_only (Headers.entries nh) acc) n
  = Headers.values acc n.
Proof.
  intros Hn. apply set_each_frame.
  intros k v _ Hk. apply routing_only_Some in Hk as [_ Hr]. congruence.
Qed.

Lemma prefix_request_prefix (k : string) :
  String.prefix request_prefix (request_prefix ++ k) = true.
Proof. unfold request_prefix. simpl. destruct k; reflexivity. Qed.

Lemma under_prefix_inj (k k' : string) :
  (request_prefix ++ k = request_prefix ++ k')%string -> k = k'.
Proof. unfold request_prefix. simpl. intros E. now inversion E. Qed.

(** What [NextResponse.next({ request: { headers } })] puts on its
    response for the header set [d]. *)
Lemma routing_of_override (d : Headers.t) :
  Headers.get (routing_of d) override_headers
  = Some (String.concat "," (map fst (Headers.entries d))).
Proof. unfold routing_of. rewrite handleMiddlewareField_eq. apply HeadersFacts.get_set_eq. Qed.

Lemma routing_of_request_header (d : Headers.t) (k v : string) :
  k <> "set-cookie" ->
  Headers.get d k = Some v ->
  Headers.get (routing_of d) (request_prefix ++ k) = Some v.
Proof.
  intros Hsc G. unfold routing_of. rewrite handleMiddlewareField_eq.
  rewrite HeadersFacts.get_set_ne
    by (unfold request_prefix, override_headers; simpl; discriminate).
  apply set_each_hit.
  - intros k' x Hin Hk. unfold under_prefix in Hk.
    assert (E : k' = k) by (apply under_prefix_inj; congruence). subst k'.
    apply HeadersFacts.entries_get in Hin; [congruence|exact Hsc].
  - left. exists k. split; [now apply HeadersFacts.entries_get|reflexivity].
Qed.

End PropagatorEffect.

(** The cookies end up where the framework reads them: the response carries
    the cookie line of the derived jar under the request prefix. *)
Lemma cookie_line_reaches_response
    (codec : CookieCodec) (req : NextRequest) (res : NextResponse) (h : Heap) :
  res_headers res < length h ->
  ResponseCookies_getAll (deref h (res_headers res)) <> [] ->
  Headers.get (deref (applyCookiesOnNextResponse req res h) (res_headers res))
              (request_prefix ++ "cookie")
  = Some (cookie_line (jar_parsed (fst (mergeCookies req res h)))).
Proof.
  intros Hres Hsome. rewrite response_after by exact Hres.
  apply routing_header_copied; [reflexivity|].
  apply routing_of_request_header; [discriminate|].
  unfold derivedHeaders. rewrite (mergeCookies_eq req res h). cbn [fst snd jar_parsed].
  rewrite deref_last.
  destruct (ResponseCookies_getAll (deref h (res_headers res))) as [|c cs]; [congruence|].
  apply HeadersFacts.get_set_eq.
Qed.

(** * The specification on the cookie propagator *)

(** In the heap the propagator leaves, the object allocated first is the
    derived header set. *)
Lemma derived_after
    (codec : CookieCodec) (req : NextRequest) (res : NextResponse) (h : Heap) :
  res_headers res < length h ->
  deref (applyCookiesOnNextResponse req res h) (length h) = derivedHeaders req res h.
Proof.
  intros Hres. pose proof (applyCookiesOnNextResponse_eq req res h) as E.
  cbv zeta in E. rewrite E. clear E.
  fold (derivedHeaders req res h). rewrite mergeCookies_heap.
  unfold deref at 1. rewrite list_lookup_insert_ne by lia.
  rewrite <- app_assoc. rewrite lookup_app_r by lia.
  replace (length h - length h) with 0 by lia. reflexivity.
Qed.

(** C7.  The propagator copies every cookie set on the response into a
    derived copy of the request's headers: in the heap it leaves, the derived
    header set is a new object, its [cookie] header is the line of a jar that
    holds every cookie of the response with its value, and its other headers
    are those of the copy of the request's; the response carries that line
    under the request prefix.  On the response the propagator changes no
    header other than the override marker and the headers under the request
    prefix. *)
Theorem C7_propagator_copies_cookies_and_sets_only_routing_headers
    (codec : CookieCodec) (req : NextRequest) (res : NextResponse) (h : Heap) :
  res_headers res < length h ->
  let cookies := ResponseCookies_getAll (deref h (res_headers res)) in
  let jar := fst (mergeCookies req res h) in
  let h' := applyCookiesOnNextResponse req res h in
  let derived := deref h' (jar_headers jar) in
  jar_headers jar = length h /\
  (forall c, In c cookies -> RequestCookies_get jar (name c) = Some (value c)) /\
  (cookies <> [] -> Headers.get derived "cookie" = Some (cookie_line (jar_parsed jar))) /\
  (forall n, n <> "cookie" ->
     Headers.values derived n
     = Headers.values (Headers.copy (deref h (req_headers req))) n) /\
  (cookies <> [] ->
     Headers.get (deref h' (res_headers res)) (request_prefix ++ "cookie")
     = Some (cookie_line (jar_parsed jar))) /\
  (forall n, is_routing_header n = false ->
     Headers.values (deref h' (res_headers res)) n
     = Headers.values (deref h (res_headers res)) n).
Proof.
  intros Hres cookies jar h' derived.
  assert (Hjar : jar_headers jar = length h).
  { subst jar. rewrite (mergeCookies_eq req res h). reflexivity. }
  assert (Hderived : derived = deref (snd (mergeCookies req res h)) (length h)).
  { subst derived h'. rewrite Hjar. now apply derived_after. }
  pose proof (mergeCookies_eq req res h) as E. cbv zeta in E. fold cookies in E.
  rewrite Hderived. clear Hderived derived.
  split; [exact Hjar|]. split; [|split; [|split; [|split]]].
  - intros c Hin. subst jar. rewrite E. unfold RequestCookies_get. cbn [fst jar_parsed].
    rewrite merged_get; [reflexivity| |exact Hin].
    apply ResponseCookies_getAll_NoDup.
  - intros Hne. subst jar. rewrite E. cbn [fst snd jar_parsed]. rewrite deref_last.
    destruct cookies as [|c cs]; [congruence|].
    apply HeadersFacts.get_set_eq.
  - intros n Hn. rewrite E. cbn [snd]. rewrite deref_last.
    destruct cookies as [|c cs]; [reflexivity|].
    now apply HeadersFacts.values_set_ne.
  - intros Hne. subst jar h'. now apply cookie_line_reaches_response.
  - intros n Hn. subst h'. rewrite response_after by exact Hres.
    now apply non_routing_header_kept.
Qed.

(** C8, as the code has it.  When no cookie was set on the response, the
    merge into the derived copy is a no-op (the derived header set is the
    copy of the request's), but the response's header set still changes: it
    receives the override marker, listing the names of the request's
    headers, and each header of the request under the request prefix.  Its
    other headers stay as they were. *)
Theorem C8_no_cookies_still_sets_routing_headers
    (codec : CookieCodec) (req : NextRequest) (res : NextResponse) (h : Heap) :
  res_headers res < length h ->
  ResponseCookies_getAll (deref h (res_headers res)) = [] ->
  let copy := Headers.copy (deref h (req_headers req)) in
  let h' := applyCookiesOnNextResponse req res h in
  snd (mergeCookies req res h) = h ++ [copy] /\
  Headers.get (deref h' (res_headers res)) override_headers
  = Some (String.concat "," (map fst (Headers.entries copy))) /\
  (forall k v, k <> "set-cookie" -> Headers.get copy k = Some v ->
     Headers.get (deref h' (res_headers res)) (request_prefix ++ k) = Some v) /\
  (forall n, is_routing_header n = false ->
     Headers.values (deref h' (res_headers res)) n
     = Headers.values (deref h (res_headers res)) n).
Proof.
  intros Hres Hnone copy h'.
  assert (Hd : derivedHeaders req res h = copy).
  { unfold derivedHeaders. rewrite (mergeCookies_eq req res h). cbn [snd].
    rewrite deref_last, Hnone. reflexivity. }
  split; [rewrite mergeCookies_heap, Hd; reflexivity|].
  subst h'. rewrite response_after by exact Hres. rewrite Hd.
  split; [|split].
  - apply routing_header_copied; [reflexivity|apply routing_of_override].
  - intros k v Hk G. apply routing_header_copied.
    + unfold is_routing_header. rewrite prefix_request_prefix. apply orb_true_r.
    + now apply routing_of_request_header.
  - intros n Hn. now apply non_routing_header_kept.
Qed.

(** * The composed handler *)

Section ComposerFacts.
Context {codec : CookieCodec}.

Lemma newResponse_eq (s : State) :
  newResponse s
  = (Return (passThrough (heap s)), {| heap := started (heap s); calls := calls s |}).
Proof. reflexivity. Qed.

(** The handler is lines 62 to 74 followed, unless line 70 returned, by
    line 76. *)
Lemma getMiddleware_split (options : GetMiddlewareOptions)
    (middlewareFn : option NextMiddleware) (req : NextRequest)
    (event : NextFetchEvent) (s : State) :
  getMiddleware options middlewareFn req event s
  = bind (untilForward options req)
      (fun next => match next with
                   | Some next => ret next
                   | None => forward middlewareFn req (passThrough (heap s)) event
                   end) s.
Proof.
  unfold getMiddleware, untilForward, bind. rewrite newResponse_eq.
  destruct (refreshStep options req (passThrough (heap s)) _) as [[[next|]|e] s1];
    reflexivity.
Qed.

End ComposerFacts.

(** * The specification on the composed handler *)

(** C1, as the code has it.  [onSuccess] is called inside the [try] of lines
    65 to 71, after the awaited [fetchTokenPair]: an exception it throws is
    caught like a failed fetch.  With [onError] supplied, the handler passes
    it the exception, and what [onError] does decides the outcome (its
    response is returned, its own exception propagates, nothing lets
    processing go on); without [onError], processing goes on with the cookie
    propagator and forwarding. *)
Theorem C1_onSuccess_exception_is_caught
    (codec : CookieCodec) (options : GetMiddlewareOptions)
    (middlewareFn : option NextMiddleware) (req : NextRequest)
    (event : NextFetchEvent) (h h1 h2 h3 : Heap) (tp : TokenPair) (e : Thrown) :
  let res := passThrough h in
  shouldRefresh options req (started h) = (Return true, h1) ->
  fetchTokenPair options req h1 = (Return tp, h2) ->
  onSuccess options res tp h2 = (Raise e, h3) ->
  let log := [CallShouldRefresh req; CallFetchTokenPair req; CallOnSuccess res tp] in
  match onError options with
  | None =>
      handle options middlewareFn req event h
      = forward middlewareFn req res event
          {| heap := applyCookiesOnNextResponse req res h3;
             calls := log ++ [CallPropagate req res] |}
  | Some f =>
      match f req res e h3 with
      | (Return (Some next), h4) =>
          handle options middlewareFn req event h
          = (Return next, {| heap := h4; calls := log ++ [CallOnError req res e] |})
      | (Return None, h4) =>
          handle options middlewareFn req event h
          = forward middlewareFn req res event
              {| heap := applyCookiesOnNextResponse req res h4;
                 calls := log ++ [CallOnError req res e; CallPropagate req res] |}
      | (Raise e', h4) =>
          handle options middlewareFn req event h
          = (Raise e', {| heap := h4; calls := log ++ [CallOnError req res e] |})
      end
  end.
Proof.
  intros res Hdecide Hfetch Hsuccess log. subst res log.
  step_handler. rewrite Hdecide. cbn. rewrite Hfetch. cbn. rewrite Hsuccess. cbn.
  destruct (onError options) as [f|]; cbn; [|reflexivity].
  destruct (f req _ e h3) as [[[next|]|e'] h4]; reflexivity.
Qed.

(** With [shouldRefresh] false the handler goes from line 64 to line 74. *)
Lemma handle_without_refresh
    (codec : CookieCodec) (options : GetMiddlewareOptions)
    (middlewareFn : option NextMiddleware) (req : NextRequest)
    (event : NextFetchEvent) (h h1 : Heap) :
  shouldRefresh options req (started h) = (Return false, h1) ->
  handle options middlewareFn req event h
  = forward middlewareFn req (passThrough h) event
      {| heap := applyCookiesOnNextResponse req (passThrough h) h1;
         calls := [CallShouldRefresh req; CallPropagate req (passThrough h)] |}.
Proof.
  intros Hdecide. step_handler. rewrite Hdecide. reflexivity.
Qed.

(** Forwarding adds to the log and removes nothing from it. *)
Lemma forward_log
    (middlewareFn : option NextMiddleware) (req : NextRequest)
    (res : NextResponse) (event : NextFetchEvent) (s : State) :
  calls (snd (forward middlewareFn req res event s))
  = calls s ++ match middlewareFn with
               | Some _ => [CallNext req res event]
               | None => []
               end.
Proof.
  unfold forward, bind, ret, invoke.
  destruct middlewareFn as [f|]; cbn.
  - destruct (f req res event (heap s)) as [[[r|]|e] h']; reflexivity.
  - now rewrite app_nil_r.
Qed.

(** C2, as the code has it.  When [shouldRefresh] returns false the handler
    skips the refresh only: line 74 runs the cookie propagator on the request
    and the pass-through response, exactly once, and line 76 forwards from
    the heap the propagator left. *)
Theorem C2_no_refresh_still_propagates
    (codec : CookieCodec) (options : GetMiddlewareOptions)
    (middlewareFn : option NextMiddleware) (req : NextRequest)
    (event : NextFetchEvent) (h h1 : Heap) :
  let res := passThrough h in
  let run := handle options middlewareFn req event h in
  shouldRefresh options req (started h) = (Return false, h1) ->
  run = forward middlewareFn req res event
          {| heap := applyCookiesOnNextResponse req res h1;
             calls := [CallShouldRefresh req; CallPropagate req res] |} /\
  calls (snd run)
  = [CallShouldRefresh req; CallPropagate req res]
    ++ match middlewareFn with
       | Some _ => [CallNext req res event]
       | None => []
       end.
Proof.
  intros res run Hdecide. subst res run.
  rewrite (handle_without_refresh codec options middlewareFn req event h h1 Hdecide).
  split; [reflexivity|]. now rewrite forward_log.
Qed.

(** C3, as the code has it.  When [shouldRefresh] returns false, neither
    [fetchTokenPair] nor [onSuccess] is called.  The handler returns the
    response of the next-stage handler when it returns one, and throws what
    it throws; it returns the pass-through response when there is no
    next-stage handler and also when the next-stage handler returns a nullish
    value. *)
Theorem C3_no_refresh_returns_forward_result
    (codec : CookieCodec) (options : GetMiddlewareOptions)
    (middlewareFn : option NextMiddleware) (req : NextRequest)
    (event : NextFetchEvent) (h h1 : Heap) :
  let res := passThrough h in
  let hp := applyCookiesOnNextResponse req res h1 in
  let run := handle options middlewareFn req event h in
  shouldRefresh options req (started h) = (Return false, h1) ->
  List.filter is_refresh_call (calls (snd run)) = [] /\
  match middlewareFn with
  | None =>
      run = (Return res,
             {| heap := hp; calls := [CallShouldRefresh req; CallPropagate req res] |})
  | Some f =>
      let log := [CallShouldRefresh req; CallPropagate req res;
                  CallNext req res event] in
      match f req res event hp with
      | (Return (Some r), h') => run = (Return r, {| heap := h'; calls := log |})
      | (Return None, h') => run = (Return res, {| heap := h'; calls := log |})
      | (Raise e, h') => run = (Raise e, {| heap := h'; calls := log |})
      end
  end.
Proof.
  intros res hp run Hdecide. subst run.
  rewrite (handle_without_refresh codec options middlewareFn req event h h1 Hdecide).
  fold res. fold hp. unfold forward, bind, ret, invoke. cbn [heap calls].
  destruct middlewareFn as [f|]; cbn.
  - destruct (f req res event hp) as [[[r|]|e] h'] eqn:E; cbn; now split.
  - now split.
Qed.

(** C4.  When [shouldRefresh] returns true and [fetchTokenPair] resolves,
    the handler calls [onSuccess] exactly once, with the pass-through
    response of line 62 and the token pair the fetch resolved with, on the
    heap the fetch left.  The rest of the run starts from what that call did:
    from the heap it left, with the propagator and forwarding when it
    returned, with the [catch] of line 68 when it threw. *)
Theorem C4_onSuccess_called_once_with_response_and_tokens
    (codec : CookieCodec) (options : GetMiddlewareOptions)
    (middlewareFn : option NextMiddleware) (req : NextRequest)
    (event : NextFetchEvent) (h h1 h2 h3 : Heap) (tp : TokenPair)
    (out : Outcome unit) :
  let res := passThrough h in
  let run := handle options middlewareFn req event h in
  shouldRefresh options req (started h) = (Return true, h1) ->
  fetchTokenPair options req h1 = (Return tp, h2) ->
  onSuccess options res tp h2 = (out, h3) ->
  List.filter is_onSuccess_call (calls (snd run)) = [CallOnSuccess res tp] /\
  run = (next <- match out with
                 | Return _ => ret None
                 | Raise e => callOnError options req res e
                 end ;;
         match next with
         | Some next => ret next
         | None => propagate req res ;;; forward middlewareFn req res event
         end)
          {| heap := h3;
             calls := [CallShouldRefresh req; CallFetchTokenPair req;
                       CallOnSuccess res tp] |}.
Proof.
  intros res run Hdecide Hfetch Hsuccess. subst res run.
  step_handler. rewrite Hdecide. cbn. rewrite Hfetch. cbn. rewrite Hsuccess. cbn.
  destruct out as [[]|e]; cbn.
  - destruct middlewareFn as [f|]; cbn; [|now split].
    destruct (f req _ event _) as [[[r|]|e] h4]; now split.
  - destruct (onError options) as [g|]; cbn.
    + destruct (g req _ e h3) as [[[next|]|e'] h4]; cbn; try (now split).
      destruct middlewareFn as [f|]; cbn; [|now split].
      destruct (f req _ event _) as [[[r|]|e'] h5]; now split.
    + destruct middlewareFn as [f|]; cbn; [|now split].
      destruct (f req _ event _) as [[[r|]|e'] h4]; now split.
Qed.

(** The body of the [try] logs the fetch and, when the fetch resolved, the
    call of [onSuccess]; nothing else. *)
Lemma guardedRefresh_log
    (options : GetMiddlewareOptions) (req : NextRequest) (res : NextResponse)
    (s : State) :
  List.filter is_pipeline_call (calls (snd (guardedRefresh options req res s)))
  = List.filter is_pipeline_call (calls s).
Proof.
  unfold guardedRefresh, bind, invoke.
  destruct (fetchTokenPair options req (heap s)) as [[tp|e] h2]; cbn.
  - destruct (onSuccess options res tp h2) as [[[]|e] h3]; cbn;
      rewrite <- app_assoc, List.filter_app; cbn; now rewrite app_nil_r.
  - rewrite List.filter_app. cbn. now rewrite app_nil_r.
Qed.

(** C5.  When the guarded refresh path fails (the fetch, or [onSuccess]
    after it) and [onError] is supplied and returns a response, the handler
    returns that very response; the cookie propagator and the next-stage
    handler are not called. *)
Theorem C5_onError_response_short_circuits
    (codec : CookieCodec) (options : GetMiddlewareOptions)
    (middlewareFn : option NextMiddleware) (req : NextRequest)
    (event : NextFetchEvent) (h h1 h3 : Heap) (s2 : State) (e : Thrown)
    (f : NextRequest -> NextResponse -> Thrown -> Callback (option NextResponse))
    (next : NextResponse) :
  let res := passThrough h in
  let run := handle options middlewareFn req event h in
  shouldRefresh options req (started h) = (Return true, h1) ->
  guardedRefresh options req res {| heap := h1; calls := [CallShouldRefresh req] |}
  = (Raise e, s2) ->
  onError options = Some f ->
  f req res e (heap s2) = (Return (Some next), h3) ->
  run = (Return next, {| heap := h3; calls := calls s2 ++ [CallOnError req res e] |}) /\
  List.filter is_pipeline_call (calls (snd run)) = [].
Proof.
  intros res run Hdecide Hfail Hsupplied Hanswer. subst run.
  assert (Hrun : handle options middlewareFn req event h
                 = (Return next, {| heap := h3; calls := calls s2 ++ [CallOnError req res e] |})).
  { unfold handle, getMiddleware, refreshStep, try_catch, bind, invoke, ret.
    rewrite newResponse_eq. cbn [heap calls]. fold res.
    rewrite Hdecide. cbn [app]. rewrite Hfail.
    unfold callOnError, invoke. rewrite Hsupplied, Hanswer. reflexivity. }
  split; [exact Hrun|]. rewrite Hrun. cbn [snd calls].
  rewrite List.filter_app. cbn.
  pose proof (guardedRefresh_log options req res {| heap := h1; calls := [CallShouldRefresh req] |}) as Hlog.
  rewrite Hfail in Hlog. cbn in Hlog. now rewrite Hlog.
Qed.

(** C6.  When [shouldRefresh] returns true, [fetchTokenPair] rejects and no
    [onError] is supplied, the rejection is caught: the handler goes on to the
    cookie propagator and to forwarding, and without a next-stage handler it
    returns the pass-through response. *)
Theorem C6_failed_fetch_without_onError_falls_through
    (codec : CookieCodec) (options : GetMiddlewareOptions)
    (middlewareFn : option NextMiddleware) (req : NextRequest)
    (event : NextFetchEvent) (h h1 h2 : Heap) (e : Thrown) :
  let res := passThrough h in
  let run := handle options middlewareFn req event h in
  shouldRefresh options req (started h) = (Return true, h1) ->
  fetchTokenPair options req h1 = (Raise e, h2) ->
  onError options = None ->
  run = forward middlewareFn req res event
          {| heap := applyCookiesOnNextResponse req res h2;
             calls := [CallShouldRefresh req; CallFetchTokenPair req;
                       CallPropagate req res] |} /\
  calls (snd run)
  = [CallShouldRefresh req; CallFetchTokenPair req; CallPropagate req res]
    ++ match middlewareFn with
       | Some _ => [CallNext req res event]
       | None => []
       end /\
  (middlewareFn = None -> fst run = Return res).
Proof.
  intros res run Hdecide Hfetch Hnone. subst run.
  assert (Hrun : handle options middlewareFn req event h
                 = forward middlewareFn req res event
                     {| heap := applyCookiesOnNextResponse req res h2;
                        calls := [CallShouldRefresh req; CallFetchTokenPair req;
                                  CallPropagate req res] |}).
  { subst res. step_handler. rewrite Hdecide. cbn. rewrite Hfetch. cbn.
    rewrite Hnone. reflexivity. }
  rewrite Hrun. split; [reflexivity|]. split; [now rewrite forward_log|].
  intros ->. reflexivity.
Qed.

(** C10.  When a next-stage handler is supplied and its call at line 76
    returns a nullish value, the handler returns the pass-through response of
    line 62. *)
Theorem C10_nullish_next_result_falls_back_to_response
    (codec : CookieCodec) (options : GetMiddlewareOptions)
    (f : NextMiddleware) (req : NextRequest) (event : NextFetchEvent)
    (h h' : Heap) (sp : State) :
  let res := passThrough h in
  untilForward options req {| heap := h; calls := [] |} = (Return None, sp) ->
  f req res event (heap sp) = (Return None, h') ->
  handle options (Some f) req event h
  = (Return res, {| heap := h'; calls := calls sp ++ [CallNext req res event] |}).
Proof.
  intros res Hreach Hnull. unfold handle. rewrite getMiddleware_split.
  unfold bind at 1. rewrite Hreach. cbn [heap].
  unfold forward, bind, invoke, ret. fold res. rewrite Hnull. reflexivity.
Qed.

(** ** The request is not written to *)

Section Frame.
Context {codec : CookieCodec}.
Variable r : ref.

Lemma keeps_ret {A} (a : A) : keeps_M r (ret a).
Proof. intros h0 s Hs. exact Hs. Qed.

Lemma keeps_bind {A B} (m : M A) (k : A -> M B) :
  keeps_M r m -> (forall a, keeps_M r (k a)) -> keeps_M r (bind m k).
Proof.
  intros Hm Hk h0 s Hs. unfold bind. specialize (Hm h0 s Hs).
  destruct (m s) as [[a|e] s']; cbn in *; [now apply Hk|exact Hm].
Qed.

Lemma keeps_try {A} (body : M A) (handler : Thrown -> M A) :
  keeps_M r body -> (forall e, keeps_M r (handler e)) ->
  keeps_M r (try_catch body handler).
Proof.
  intros Hb Hh h0 s Hs. unfold try_catch. specialize (Hb h0 s Hs).
  destruct (body s) as [[a|e] s']; cbn in *; [exact Hb|now apply Hh].
Qed.

Lemma keeps_invoke {A} (ev : Event) (c : Callback A) :
  keeps r c -> keeps_M r (invoke ev c).
Proof.
  intros Hc h0 s [Hlen Hsame]. unfold invoke, same_at.
  destruct (Hc (heap s) Hlen) as [Hlen' Hsame'].
  destruct (c (heap s)) as [out h']; cbn in *. split; [exact Hlen'|congruence].
Qed.

Lemma keeps_propagate (req : NextRequest) (res : NextResponse) :
  res_headers res <> r -> keeps_M r (propagate req res).
Proof.
  intros Hne h0 s [Hlen Hsame]. unfold propagate, same_at. cbn.
  split; [rewrite length_after; lia|].
  rewrite others_after by congruence. exact Hsame.
Qed.

Lemma keeps_forward (middlewareFn : option NextMiddleware) (req : NextRequest)
    (res : NextResponse) (event : NextFetchEvent) :
  (forall f, middlewareFn = Some f -> keeps r (f req res event)) ->
  keeps_M r (forward middlewareFn req res event).
Proof.
  intros Hf. unfold forward. apply keeps_bind; [|intros; apply keeps_ret].
  destruct middlewareFn as [f|]; [apply keeps_invoke; now apply Hf|apply keeps_ret].
Qed.

Lemma keeps_refreshStep (options : GetMiddlewareOptions) (req : NextRequest)
    (res : NextResponse) :
  keeps r (shouldRefresh options req) ->
  keeps r (fetchTokenPair options req) ->
  (forall tp, keeps r (onSuccess options res tp)) ->
  (forall f e, onError options = Some f -> keeps r (f req res e)) ->
  keeps_M r (refreshStep options req res).
Proof.
  intros Hdecide Hfetch Hsuccess Herror. unfold refreshStep.
  apply keeps_bind; [now apply keeps_invoke|].
  intros [|]; [|apply keeps_ret].
  apply keeps_try.
  - apply keeps_bind; [|intros; apply keeps_ret].
    unfold guardedRefresh. apply keeps_bind; [now apply keeps_invoke|].
    intros tp. now apply keeps_invoke.
  - intros e. unfold callOnError.
    destruct (onError options) as [f|] eqn:E; [|apply keeps_ret].
    apply keeps_invoke. now apply Herror.
Qed.

End Frame.

(** C9.  Neither the cookie propagator nor the composed handler writes to
    the request: the propagator works on a copy of the request's headers, a
    new object, and the handler's own steps write to the pass-through
    response only.  The request's header set after the call is the one before
    it; for the propagator the response is an object other than the request's
    header set, and for the handler the caller's callbacks, which are code of
    the caller, leave the request alone. *)
Theorem C9_request_is_not_mutated (codec : CookieCodec) :
  (forall (req : NextRequest) (res : NextResponse) (h : Heap),
      req_headers req < length h ->
      res_headers res <> req_headers req ->
      applyCookiesOnNextResponse req res h !! req_headers req = h !! req_headers req) /\
  (forall (options : GetMiddlewareOptions) (middlewareFn : option NextMiddleware)
          (req : NextRequest) (event : NextFetchEvent) (h : Heap),
      req_headers req < length h ->
      callbacks_keep options middlewareFn req (passThrough h) event ->
      heap (snd (handle options middlewareFn req event h)) !! req_headers req
      = h !! req_headers req).
Proof.
  split.
  - intros req res h Hlen Hne. apply others_after; [exact Hlen|congruence].
  - intros options middlewareFn req event h Hlen (Hd & Hf & Hs & He & Hn).
    assert (Hstart : same_at (req_headers req) h {| heap := started h; calls := [] |}).
    { unfold same_at, started. cbn. rewrite length_app. cbn.
      split; [lia|now apply lookup_app_l]. }
    assert (Hrest : keeps_M (req_headers req)
              (next <- refreshStep options req (passThrough h) ;;
               match next with
               | Some next => ret next
               | None => propagate req (passThrough h) ;;;
                         forward middlewareFn req (passThrough h) event
               end)).
    { apply keeps_bind.
      - apply keeps_refreshStep; [exact Hd|exact Hf|exact Hs|exact He].
      - intros [next|]; [apply keeps_ret|].
        apply keeps_bind.
        + apply keeps_propagate. unfold passThrough. cbn. lia.
        + intros _. apply keeps_forward. exact Hn. }
    destruct (Hrest h _ Hstart) as [_ Hsame].
    unfold handle, getMiddleware. unfold bind at 1. rewrite newResponse_eq.
    cbn [heap calls]. exact Hsame.
Qed.

(** * The statements on concrete requests *)

Module Checks.
Import PlainCodec Demo.

(** [onSuccess] throws and no [onError] is supplied: the handler goes on to
    the propagator. *)
Lemma C1_witness :
  handle throwingOnSuccess None req event heap0
  = forward None req (passThrough heap0) event
      {| heap := applyCookiesOnNextResponse req (passThrough heap0) (started heap0);
         calls := [CallShouldRefresh req; CallFetchTokenPair req;
                   CallOnSuccess (passThrough heap0) tokens;
                   CallPropagate req (passThrough heap0)] |}.
Proof.
  exact (C1_onSuccess_exception_is_caught codec throwingOnSuccess None req event
           heap0 (started heap0) (started heap0) (started heap0) tokens
           (JsError "boom") eq_refl eq_refl eq_refl).
Defined.

(** C1 as stated fails: [shouldRefresh] returns true, the fetch resolves,
    [onSuccess] throws [Error("boom")], and the handler returns the
    pass-through response instead of throwing. *)
Lemma C1_counterexample :
  shouldRefresh throwingOnSuccess req (started heap0) = (Return true, started heap0) /\
  fetchTokenPair throwingOnSuccess req (started heap0) = (Return tokens, started heap0) /\
  onSuccess throwingOnSuccess (passThrough heap0) tokens (started heap0)
  = (Raise (JsError "boom"), started heap0) /\
  fst (handle throwingOnSuccess None req event heap0) = Return (passThrough heap0) /\
  fst (handle throwingOnSuccess None req event heap0) <> Raise (JsError "boom").
Proof.
  repeat split; try reflexivity. vm_compute. discriminate.
Qed.

Lemma C2_witness :
  calls (snd (handle noRefresh None req event heap0))
  = [CallShouldRefresh req; CallPropagate req (passThrough heap0)].
Proof.
  exact (proj2 (C2_no_refresh_still_propagates codec noRefresh None req event
                  heap0 (started heap0) eq_refl)).
Defined.

(** C2 as stated fails: [shouldRefresh] returns false, and the propagator
    has run all the same; the pass-through response carries the routing
    headers it wrote. *)
Lemma C2_counterexample :
  shouldRefresh noRefresh req (started heap0) = (Return false, started heap0) /\
  In (CallPropagate req (passThrough heap0))
     (calls (snd (handle noRefresh None req event heap0))) /\
  deref (started heap0) 1 = [("x-middleware-next", "1")] /\
  deref (heap (snd (handle noRefresh None req event heap0))) 1
  = [("x-middleware-next", "1");
     ("x-middleware-override-headers", "host");
     ("x-middleware-request-host", "example.com")].
Proof.
  repeat split. vm_compute. right. left. reflexivity.
Qed.

(** The next-stage handler answers with a response of its own, and the
    handler returns that response. *)
Lemma C3_witness :
  List.filter is_refresh_call
    (calls (snd (handle noRefresh (Some returnsOther) req event heap0))) = [] /\
  fst (handle noRefresh (Some returnsOther) req event heap0)
  = Return {| res_headers := 4 |}.
Proof.
  destruct (C3_no_refresh_returns_forward_result codec noRefresh (Some returnsOther)
              req event heap0 (started heap0) eq_refl) as [Hnone Hrun].
  split; [exact Hnone|]. exact (f_equal fst Hrun).
Defined.

(** C3 as stated fails: [shouldRefresh] returns false, the next-stage handler
    is called and its result is nullish, and the handler returns the
    pass-through response, which is not that result. *)
Lemma C3_counterexample :
  shouldRefresh noRefresh req (started heap0) = (Return false, started heap0) /\
  In (CallNext req (passThrough heap0) event)
     (calls (snd (handle noRefresh (Some returnsNothing) req event heap0))) /\
  fst (returnsNothing req (passThrough heap0) event
         (applyCookiesOnNextResponse req (passThrough heap0) (started heap0)))
  = Return None /\
  fst (handle noRefresh (Some returnsNothing) req event heap0)
  = Return (passThrough heap0) /\
  Some (passThrough heap0) <> (None : option NextResponse).
Proof.
  repeat split; try discriminate. vm_compute. right. right. left. reflexivity.
Qed.

(** The configuration [readme]: one call of [onSuccess], and the cookies it
    set are on the response the handler returns. *)
Lemma C4_witness :
  List.filter is_onSuccess_call (calls (snd (handle readme None req event heap0)))
  = [CallOnSuccess (passThrough heap0) tokens] /\
  Headers.values (deref (heap (snd (handle readme None req event heap0))) 1) "set-cookie"
  = ["access-token=AT2; Path=/; Max-Age=604800";
     "refresh-token=RT2; Path=/; Max-Age=604800"].
Proof.
  destruct (C4_onSuccess_called_once_with_response_and_tokens codec readme None req
              event heap0 (started heap0) (started heap0)
              (snd (setTokens (passThrough heap0) tokens (started heap0)))
              tokens (Return tt) eq_refl eq_refl eq_refl) as [Hlog Hrun].
  split; [exact Hlog|]. rewrite Hrun. reflexivity.
Defined.

Lemma C5_witness :
  fst (handle redirecting (Some returnsRes) req event heap0)
  = Return {| res_headers := 2 |} /\
  List.filter is_pipeline_call
    (calls (snd (handle redirecting (Some returnsRes) req event heap0))) = [].
Proof.
  destruct (C5_onError_response_short_circuits codec redirecting (Some returnsRes)
              req event heap0 (started heap0)
              (started heap0 ++ [[("location", "/login")]])
              {| heap := started heap0;
                 calls := [CallShouldRefresh req; CallFetchTokenPair req] |}
              (JsError "network") toLogin {| res_headers := 2 |}
              eq_refl eq_refl eq_refl eq_refl) as [Hrun Hlog].
  split; [rewrite Hrun; reflexivity|exact Hlog].
Defined.

Lemma C6_witness :
  calls (snd (handle failingFetch (Some returnsRes) req event heap0))
  = [CallShouldRefresh req; CallFetchTokenPair req;
     CallPropagate req (passThrough heap0);
     CallNext req (passThrough heap0) event] /\
  fst (handle failingFetch None req event heap0) = Return (passThrough heap0).
Proof.
  split.
  - exact (proj1 (proj2 (C6_failed_fetch_without_onError_falls_through codec
                           failingFetch (Some returnsRes) req event heap0
                           (started heap0) (started heap0) (JsError "network")
                           eq_refl eq_refl eq_refl))).
  - exact (proj2 (proj2 (C6_failed_fetch_without_onError_falls_through codec
                           failingFetch None req event heap0
                           (started heap0) (started heap0) (JsError "network")
                           eq_refl eq_refl eq_refl)) eq_refl).
Defined.

(** The cookies [a] and [b] of the response reach the derived header set
    that the propagator leaves in the heap, and the [Set-Cookie] lines of the
    response stay as they were. *)
Lemma C7_witness :
  RequestCookies_get (fst (mergeCookies req res heapAB)) "a" = Some "1" /\
  RequestCookies_get (fst (mergeCookies req res heapAB)) "b" = Some "2" /\
  Headers.get (deref (applyCookiesOnNextResponse req res heapAB) 2) "cookie"
  = Some "a=1; b=2" /\
  Headers.get (deref (applyCookiesOnNextResponse req res heapAB) 1)
              "x-middleware-request-cookie"
  = Some "a=1; b=2" /\
  Headers.values (deref (applyCookiesOnNextResponse req res heapAB) 1) "set-cookie"
  = ["a=1; Path=/"; "b=2; Path=/"].
Proof.
  destruct (C7_propagator_copies_cookies_and_sets_only_routing_headers codec req res
              heapAB ltac:(simpl; lia))
    as (_ & Hcopied & Hline & _ & Hresponse & Hframe).
  split; [|split; [|split; [|split]]].
  - apply (Hcopied {| name := "a"; value := "1"; attributes := [("Path", "/")] |}).
    vm_compute. left. reflexivity.
  - apply (Hcopied {| name := "b"; value := "2"; attributes := [("Path", "/")] |}).
    vm_compute. right. left. reflexivity.
  - apply Hline. vm_compute. discriminate.
  - apply Hresponse. vm_compute. discriminate.
  - exact (Hframe "set-cookie" eq_refl).
Defined.

Lemma C8_witness :
  Headers.get (deref (applyCookiesOnNextResponse req res heapPlain) 1) override_headers
  = Some "host" /\
  Headers.get (deref (applyCookiesOnNextResponse req res heapPlain) 1)
              "x-middleware-request-host"
  = Some "example.com".
Proof.
  destruct (C8_no_cookies_still_sets_routing_headers codec req res heapPlain
              ltac:(simpl; lia) eq_refl) as (_ & Hmarker & Hrequest & _).
  split; [exact Hmarker|].
  apply (Hrequest "host" "example.com"); [discriminate|reflexivity].
Defined.

(** C8 as stated fails: no cookie is set on the response, and the propagator
    adds two headers to it. *)
Lemma C8_counterexample :
  ResponseCookies_getAll (deref heapPlain (res_headers res)) = [] /\
  deref heapPlain (res_headers res) = [("x-middleware-next", "1")] /\
  deref (applyCookiesOnNextResponse req res heapPlain) (res_headers res)
  = [("x-middleware-next", "1");
     ("x-middleware-override-headers", "host");
     ("x-middleware-request-host", "example.com")] /\
  deref (applyCookiesOnNextResponse req res heapPlain) (res_headers res)
  <> deref heapPlain (res_headers res).
Proof.
  repeat split. vm_compute. discriminate.
Qed.

Lemma setTokens_keeps (tp : TokenPair) :
  keeps (req_headers req) (setTokens (passThrough heap0) tp).
Proof.
  intros h Hlen. unfold setTokens, append_cookie. cbn.
  rewrite !length_insert. split; [exact Hlen|].
  rewrite !list_lookup_insert_ne by discriminate. reflexivity.
Defined.

Lemma C9_witness :
  applyCookiesOnNextResponse req res heapAB !! 0 = Some [("host", "example.com")] /\
  heap (snd (handle readme (Some returnsRes) req event heap0)) !! 0
  = Some [("host", "example.com")].
Proof.
  destruct (C9_request_is_not_mutated codec) as [Hpropagator Hhandler].
  split.
  - apply (Hpropagator req res heapAB); [simpl; lia|discriminate].
  - apply (Hhandler readme (Some returnsRes) req event heap0); [simpl; lia|].
    unfold callbacks_keep. split; [|split; [|split; [|split]]].
    + intros h Hlen. split; [exact Hlen|reflexivity].
    + intros h Hlen. split; [exact Hlen|reflexivity].
    + intros tp. apply setTokens_keeps.
    + intros f e Hf. discriminate Hf.
    + intros f Hf h Hlen. inversion Hf; subst. split; [exact Hlen|reflexivity].
Defined.

Lemma C10_witness :
  fst (handle failingFetch (Some returnsNothing) req event heap0)
  = Return (passThrough heap0).
Proof.
  rewrite (C10_nullish_next_result_falls_back_to_response codec failingFetch
             returnsNothing req event heap0
             (heap (snd (untilForward failingFetch req {| heap := heap0; calls := [] |})))
             (snd (untilForward failingFetch req {| heap := heap0; calls := [] |}))
             eq_refl eq_refl).
  reflexivity.
Defined.

End Checks.

(** * Further properties of the cookie propagator *)

(** ** Copies of header lists *)

Lemma values_app (a b : Headers.t) (k : string) :
  Headers.values (a ++ b) k = Headers.values a k ++ Headers.values b k.
Proof. unfold Headers.values. now rewrite List.filter_app, map_app. Qed.

Lemma ltb_trans (a b c : string) :
  String.ltb a b = true -> String.ltb b c = true -> String.ltb a c = true.
Proof.
  unfold String.ltb. intros Hab Hbc.
  assert (Lab : OrderedTypeEx.String_as_OT.lt a b).
  { apply OrderedTypeEx.String_as_OT.cmp_lt. unfold OrderedTypeEx.String_as_OT.cmp.
    destruct (String.compare a b); [discriminate|reflexivity|discriminate]. }
  assert (Lbc : OrderedTypeEx.String_as_OT.lt b c).
  { apply OrderedTypeEx.String_as_OT.cmp_lt. unfold OrderedTypeEx.String_as_OT.cmp.
    destruct (String.compare b c); [discriminate|reflexivity|discriminate]. }
  pose proof (OrderedTypeEx.String_as_OT.lt_trans a b c Lab Lbc) as Lac.
  apply OrderedTypeEx.String_as_OT.cmp_lt in Lac.
  unfold OrderedTypeEx.String_as_OT.cmp in Lac. now rewrite Lac.
Qed.

Lemma ltb_irrefl (a : string) : String.ltb a a = false.
Proof.
  unfold String.ltb. pose proof (String.compare_antisym a a) as H.
  destruct (String.compare a a); try reflexivity; discriminate.
Qed.

Lemma ltb_total (a b : string) :
  a <> b -> String.ltb a b = false -> String.ltb b a = true.
Proof.
  unfold String.ltb. intros Hne Hab.
  rewrite (String.compare_antisym b a).
  destruct (String.compare a b) eqn:E; cbn; try reflexivity; try discriminate.
  exfalso. apply Hne. now apply String.compare_eq_iff.
Qed.

(** The names of the iteration are in strictly ascending order. *)
Lemma insert_sorted_sorted (n : string) (l : list string) :
  Sorted.StronglySorted (fun a b => String.ltb a b = true) l ->
  Sorted.StronglySorted (fun a b => String.ltb a b = true) (Headers.insert_sorted n l).
Proof.
  induction l as [|m rest IH]; intros Hs; simpl.
  - constructor; [constructor|constructor].
  - apply Sorted.StronglySorted_inv in Hs as [Hrest Hm].
    destruct (String.eqb_spec n m) as [->|Hnm]; [now constructor|].
    destruct (String.ltb n m) eqn:E.
    + constructor; [now constructor|].
      constructor; [exact E|].
      eapply List.Forall_impl; [|exact Hm]. intros x Hx. cbn in *.
      now apply (ltb_trans n m x).
    + constructor; [now apply IH|].
      apply List.Forall_forall. intros x Hx.
      apply HeadersFacts.insert_sorted_In in Hx as [->|Hx].
      * now apply ltb_total.
      * rewrite List.Forall_forall in Hm. now apply Hm.
Qed.

Lemma sorted_names_NoDup (h : Headers.t) : List.NoDup (Headers.sorted_names h).
Proof.
  assert (Hs : Sorted.StronglySorted (fun a b => String.ltb a b = true)
                 (Headers.sorted_names h)).
  { unfold Headers.sorted_names. induction (map fst h) as [|n l IH]; simpl.
    - constructor.
    - now apply insert_sorted_sorted. }
  induction Hs as [|a l Hl IH Ha]; constructor; [|exact IH].
  intros Hin. rewrite List.Forall_forall in Ha. specialize (Ha a Hin).
  cbn in Ha. now rewrite ltb_irrefl in Ha.
Qed.

Lemma values_entries_of_ne (h : Headers.t) (n k : string) :
  n <> k -> Headers.values (Headers.entries_of h n) k = [].
Proof.
  intros Hne. unfold Headers.entries_of, Headers.values.
  destruct (String.eqb n "set-cookie").
  - induction (map snd (List.filter (fun p => String.eqb (fst p) n) h)) as [|v vs IH];
      simpl; [reflexivity|].
    destruct (String.eqb_spec n k); [congruence|exact IH].
  - destruct (Headers.get h n) as [v|]; simpl; [|reflexivity].
    destruct (String.eqb_spec n k); [congruence|reflexivity].
Qed.

Lemma values_entries_of_eq (h : Headers.t) (k : string) :
  Headers.values (Headers.entries_of h k) k
  = if String.eqb k "set-cookie" then Headers.values h k
    else match Headers.get h k with Some v => [v] | None => [] end.
Proof.
  unfold Headers.entries_of.
  destruct (String.eqb k "set-cookie").
  - unfold Headers.values at 1.
    induction (Headers.values h k) as [|v vs IH]; simpl; [reflexivity|].
    rewrite String.eqb_refl. simpl. now f_equal.
  - destruct (Headers.get h k) as [v|]; [|reflexivity].
    unfold Headers.values. simpl. now rewrite String.eqb_refl.
Qed.

Lemma values_flat_entries (h : Headers.t) (k : string) (names : list string) :
  List.NoDup names ->
  Headers.values (flat_map (Headers.entries_of h) names) k
  = if in_dec String.string_dec k names
    then Headers.values (Headers.entries_of h k) k else [].
Proof.
  induction names as [|n rest IH]; intros Hnd; simpl; [reflexivity|].
  inversion Hnd as [|? ? Hnotin Hrest]; subst.
  rewrite values_app, (IH Hrest).
  destruct (String.string_dec n k) as [->|Hne].
  - destruct (in_dec String.string_dec k rest); [contradiction|]. apply app_nil_r.
  - rewrite values_entries_of_ne by exact Hne. simpl.
    destruct (in_dec String.string_dec k rest); reflexivity.
Qed.

(** The copy of a header list answers [get] as the original. *)
Lemma get_copy (h : Headers.t) (k : string) :
  Headers.get (Headers.copy h) k = Headers.get h k.
Proof.
  unfold Headers.copy, Headers.entries, Headers.get at 1.
  rewrite values_flat_entries by apply sorted_names_NoDup.
  destruct (in_dec String.string_dec k (Headers.sorted_names h)) as [Hin|Hnot].
  - rewrite values_entries_of_eq.
    destruct (String.eqb k "set-cookie"); [reflexivity|].
    destruct (Headers.get h k) as [v|]; [|reflexivity].
    simpl. reflexivity.
  - rewrite HeadersFacts.sorted_names_In in Hnot.
    apply HeadersFacts.values_nil_not_in in Hnot.
    unfold Headers.get. now rewrite Hnot.
Qed.

(** ** Setting a header that is already there *)

Lemma delete_absent (h : Headers.t) (n : string) :
  Headers.values h n = [] -> Headers.delete h n = h.
Proof.
  unfold Headers.values, Headers.delete.
  induction h as [|[k v] rest IH]; simpl; [reflexivity|].
  destruct (String.eqb k n); simpl; [discriminate|].
  intros H. f_equal. now apply IH.
Qed.

Lemma set_same (h : Headers.t) (n v : string) :
  Headers.values h n = [v] -> Headers.set h n v = h.
Proof.
  induction h as [|[k w] rest IH]; simpl.
  - unfold Headers.values. simpl. discriminate.
  - unfold Headers.values in *. simpl.
    destruct (String.eqb_spec k n) as [->|Hk]; simpl.
    + intros H. inversion H as [[Hw Hrest]]. f_equal.
      now apply delete_absent.
    + intros H. f_equal. now apply IH.
Qed.

Lemma set_each_values (f : string -> option string) (es : list (string * string))
    (acc : Headers.t) (n v : string) :
  (forall k x, In (k, x) es -> f k = Some n -> x = v) ->
  (exists k, In (k, v) es /\ f k = Some n) \/ Headers.values acc n = [v] ->
  Headers.values (set_each f es acc) n = [v].
Proof.
  revert acc. unfold set_each.
  induction es as [|[k0 v0] rest IH]; intros acc Hv Hin; simpl.
  - destruct Hin as [(k & [] & _)|G]. exact G.
  - apply IH; [intros k x Hk Hfk; apply (Hv k x); [now right|exact Hfk]|].
    destruct (f k0) as [n0|] eqn:E0.
    + destruct (String.eqb_spec n0 n) as [->|Hne].
      * right. rewrite (Hv k0 v0 (or_introl eq_refl) E0). apply HeadersFacts.values_set_eq.
      * destruct Hin as [(k & [Eq|Hin] & Hk)|G].
        -- inversion Eq; subst. congruence.
        -- left. now exists k.
        -- right. rewrite HeadersFacts.values_set_ne by congruence. exact G.
    + destruct Hin as [(k & [Eq|Hin] & Hk)|G].
      * inversion Eq; subst. congruence.
      * left. now exists k.
      * now right.
Qed.

Lemma set_each_fixed (f : string -> option string) (es : list (string * string))
    (x : Headers.t) :
  (forall k v n, In (k, v) es -> f k = Some n -> Headers.values x n = [v]) ->
  set_each f es x = x.
Proof.
  unfold set_each. induction es as [|[k v] rest IH]; intros Hx; simpl; [reflexivity|].
  destruct (f k) as [n|] eqn:E.
  - rewrite set_same by (apply (Hx k v n); [now left|exact E]).
    apply IH. intros k' v' n' Hin. apply Hx. now right.
  - apply IH. intros k' v' n' Hin. apply Hx. now right.
Qed.

(** Running such a loop a second time changes nothing, when the entries
    give one value to each header they set. *)
Lemma set_each_twice (f : string -> option string) (es : list (string * string))
    (acc : Headers.t) :
  (forall k v k' v' n, In (k, v) es -> In (k', v') es ->
                       f k = Some n -> f k' = Some n -> v = v') ->
  set_each f es (set_each f es acc) = set_each f es acc.
Proof.
  intros Hfun. apply set_each_fixed.
  intros k v n Hin Hk. apply set_each_values.
  - intros k' x Hin' Hk'. now apply (Hfun k' x k v n).
  - left. now exists k.
Qed.

Section PropagatorMore.
Context {codec : CookieCodec}.

Lemma routing_entries_functional (nh : Headers.t) (k v k' v' n : string) :
  In (k, v) (Headers.entries nh) -> In (k', v') (Headers.entries nh) ->
  routing_only k = Some n -> routing_only k' = Some n -> v = v'.
Proof.
  intros Hin Hin' Hk Hk'.
  apply routing_only_Some in Hk as [-> Hn]. apply routing_only_Some in Hk' as [-> _].
  pose proof (routing_not_set_cookie n Hn) as Hsc.
  apply HeadersFacts.entries_get in Hin; [|exact Hsc].
  apply HeadersFacts.entries_get in Hin'; [|exact Hsc]. congruence.
Qed.

(** The derived header set in closed form. *)
Lemma derivedHeaders_eq (req : NextRequest) (res : NextResponse) (h : Heap) :
  derivedHeaders req res h
  = match ResponseCookies_getAll (deref h (res_headers res)) with
    | [] => Headers.copy (deref h (req_headers req))
    | _ :: _ =>
        Headers.set (Headers.copy (deref h (req_headers req))) "cookie"
          (cookie_line (merged (ResponseCookies_getAll (deref h (res_headers res)))
                               (jar_parsed (incomingJar req h))))
    end.
Proof.
  unfold derivedHeaders, incomingJar. rewrite (mergeCookies_eq req res h). cbn [snd].
  rewrite deref_last.
  destruct (ResponseCookies_getAll (deref h (res_headers res))); reflexivity.
Qed.

(** The jar of line 35 depends on the request's headers only. *)
Lemma incomingJar_parsed (req : NextRequest) (h h' : Heap) :
  deref h (req_headers req) = deref h' (req_headers req) ->
  jar_parsed (incomingJar req h) = jar_parsed (incomingJar req h').
Proof.
  intros E. unfold incomingJar, RequestCookies_new. cbn [jar_parsed].
  rewrite !deref_last, E. reflexivity.
Qed.

Lemma derivedHeaders_ext (req : NextRequest) (res : NextResponse) (h h' : Heap) :
  deref h (req_headers req) = deref h' (req_headers req) ->
  Headers.values (deref h (res_headers res)) "set-cookie"
  = Headers.values (deref h' (res_headers res)) "set-cookie" ->
  derivedHeaders req res h = derivedHeaders req res h'.
Proof.
  intros Ereq Eres. rewrite !derivedHeaders_eq.
  assert (Ecs : ResponseCookies_getAll (deref h (res_headers res))
                = ResponseCookies_getAll (deref h' (res_headers res))).
  { unfold ResponseCookies_getAll, ResponseCookies_parsed, Headers.getSetCookie.
    now rewrite Eres. }
  rewrite Ecs, Ereq, (incomingJar_parsed req h h' Ereq). reflexivity.
Qed.

End PropagatorMore.

Lemma merged_keys (cs : list ResponseCookie) (m : JsMap.t RequestCookie) (n : string) :
  In n (JsMap.keys (merged cs m)) <-> In n (JsMap.keys m) \/ In n (map name cs).
Proof.
  revert m. induction cs as [|c rest IH]; intros m; simpl; [tauto|].
  rewrite IH, JsMapFacts.keys_set_In. intuition congruence.
Qed.

(** X1.  Whatever the cookies, the propagator leaves the override marker on
    the response, and its value is the comma-joined list of the names of the
    derived header set. *)
Theorem X1_propagator_always_sets_override_marker
    (codec : CookieCodec) (req : NextRequest) (res : NextResponse) (h : Heap) :
  res_headers res < length h ->
  Headers.get (deref (applyCookiesOnNextResponse req res h) (res_headers res))
              override_headers
  = Some (String.concat "," (map fst (Headers.entries (derivedHeaders req res h)))).
Proof.
  intros Hres. rewrite response_after by exact Hres.
  apply routing_header_copied; [reflexivity|apply routing_of_override].
Qed.

(** X2.  When the response has cookies, the propagator puts on it, under
    [x-middleware-request-cookie], the cookie line of the request's cookies
    with the cookies of the response set over them. *)
Theorem X2_response_carries_merged_cookie_line
    (codec : CookieCodec) (req : NextRequest) (res : NextResponse) (h : Heap) :
  res_headers res < length h ->
  ResponseCookies_getAll (deref h (res_headers res)) <> [] ->
  Headers.get (deref (applyCookiesOnNextResponse req res h) (res_headers res))
              "x-middleware-request-cookie"
  = Some (cookie_line (merged (ResponseCookies_getAll (deref h (res_headers res)))
                              (jar_parsed (incomingJar req h)))).
Proof.
  intros Hres Hsome.
  pose proof (cookie_line_reaches_response codec req res h Hres Hsome) as H.
  rewrite (mergeCookies_eq req res h) in H. exact H.
Qed.

(** X3.  Every header of the request other than [cookie] and [set-cookie]
    reaches the response under the request prefix, with the value the
    request has for it. *)
Theorem X3_request_headers_forwarded_under_prefix
    (codec : CookieCodec) (req : NextRequest) (res : NextResponse) (h : Heap)
    (k v : string) :
  res_headers res < length h ->
  k <> "cookie" -> k <> "set-cookie" ->
  Headers.get (deref h (req_headers req)) k = Some v ->
  Headers.get (deref (applyCookiesOnNextResponse req res h) (res_headers res))
              (request_prefix ++ k)
  = Some v.
Proof.
  intros Hres Hc Hsc G. rewrite response_after by exact Hres.
  apply routing_header_copied.
  - unfold is_routing_header. rewrite prefix_request_prefix. apply orb_true_r.
  - apply routing_of_request_header; [exact Hsc|].
    rewrite derivedHeaders_eq.
    destruct (ResponseCookies_getAll (deref h (res_headers res))).
    + now rewrite get_copy.
    + rewrite HeadersFacts.get_set_ne by exact Hc. now rewrite get_copy.
Qed.

(** X4.  The jar on the derived copy holds the cookies of the request and
    those of the response and no other; a cookie of the request that the
    response does not set keeps its value. *)
Theorem X4_derived_jar_is_request_jar_overlaid
    (codec : CookieCodec) (req : NextRequest) (res : NextResponse) (h : Heap)
    (n : string) :
  let cookies := ResponseCookies_getAll (deref h (res_headers res)) in
  let jar := fst (mergeCookies req res h) in
  (In n (JsMap.keys (jar_parsed jar))
   <-> In n (JsMap.keys (jar_parsed (incomingJar req h))) \/ In n (map name cookies)) /\
  (~ In n (map name cookies) ->
   RequestCookies_get jar n = RequestCookies_get (incomingJar req h) n).
Proof.
  intros cookies jar. subst jar.
  rewrite (mergeCookies_eq req res h). cbn [fst jar_parsed]. fold cookies.
  split.
  - apply merged_keys.
  - intros Hnot. unfold RequestCookies_get. cbn [jar_parsed].
    now rewrite merged_get_other.
Qed.

(** X6.  Running the propagator a second time on the same request and
    response changes nothing on the response: the derived header set is the
    same and the routing headers are already there. *)
Theorem X6_propagator_is_idempotent_on_the_response
    (codec : CookieCodec) (req : NextRequest) (res : NextResponse) (h : Heap) :
  req_headers req < length h ->
  res_headers res < length h ->
  res_headers res <> req_headers req ->
  let h1 := applyCookiesOnNextResponse req res h in
  derivedHeaders req res h1 = derivedHeaders req res h /\
  deref (applyCookiesOnNextResponse req res h1) (res_headers res)
  = deref h1 (res_headers res).
Proof.
  intros Hreq Hres Hne h1.
  assert (Hlen : res_headers res < length h1)
    by (subst h1; rewrite length_after; lia).
  assert (Ereq : deref h1 (req_headers req) = deref h (req_headers req)).
  { subst h1. unfold deref. rewrite others_after by congruence. reflexivity. }
  assert (Ed : derivedHeaders req res h1 = derivedHeaders req res h).
  { apply derivedHeaders_ext; [exact Ereq|].
    subst h1. rewrite response_after by exact Hres.
    now apply non_routing_header_kept. }
  split; [exact Ed|].
  rewrite (response_after req res h1 Hlen), Ed.
  subst h1. rewrite (response_after req res h Hres).
  apply set_each_twice. intros k v k' v' n. apply routing_entries_functional.
Qed.

(** * Further properties of the composed handler *)

(** X7.  An exception of [shouldRefresh] is not caught: the handler throws
    it, and has called nothing else. *)
Theorem X7_shouldRefresh_exception_propagates
    (codec : CookieCodec) (options : GetMiddlewareOptions)
    (middlewareFn : option NextMiddleware) (req : NextRequest)
    (event : NextFetchEvent) (h h1 : Heap) (e : Thrown) :
  shouldRefresh options req (started h) = (Raise e, h1) ->
  handle options middlewareFn req event h
  = (Raise e, {| heap := h1; calls := [CallShouldRefresh req] |}).
Proof.
  intros Hdecide. step_handler. rewrite Hdecide. reflexivity.
Qed.

(** X8.  An exception of [onError] is not caught: when the guarded refresh
    path fails and [onError] throws, the handler throws what [onError] threw,
    and neither the propagator nor the next-stage handler is called. *)
Theorem X8_onError_exception_propagates
    (codec : CookieCodec) (options : GetMiddlewareOptions)
    (middlewareFn : option NextMiddleware) (req : NextRequest)
    (event : NextFetchEvent) (h h1 h3 : Heap) (s2 : State) (e e' : Thrown)
    (f : NextRequest -> NextResponse -> Thrown -> Callback (option NextResponse)) :
  let res := passThrough h in
  let run := handle options middlewareFn req event h in
  shouldRefresh options req (started h) = (Return true, h1) ->
  guardedRefresh options req res {| heap := h1; calls := [CallShouldRefresh req] |}
  = (Raise e, s2) ->
  onError options = Some f ->
  f req res e (heap s2) = (Raise e', h3) ->
  run = (Raise e', {| heap := h3; calls := calls s2 ++ [CallOnError req res e] |}) /\
  List.filter is_pipeline_call (calls (snd run)) = [].
Proof.
  intros res run Hdecide Hfail Hsupplied Hthrows. subst run.
  assert (Hrun : handle options middlewareFn req event h
                 = (Raise e', {| heap := h3; calls := calls s2 ++ [CallOnError req res e] |})).
  { unfold handle, getMiddleware, refreshStep, try_catch, bind, invoke, ret.
    rewrite newResponse_eq. cbn [heap calls]. fold res.
    rewrite Hdecide. cbn [app]. rewrite Hfail.
    unfold callOnError, invoke. rewrite Hsupplied, Hthrows. reflexivity. }
  split; [exact Hrun|]. rewrite Hrun. cbn [snd calls].
  rewrite List.filter_app. cbn.
  pose proof (guardedRefresh_log options req res
                {| heap := h1; calls := [CallShouldRefresh req] |}) as Hlog.
  rewrite Hfail in Hlog. cbn in Hlog. now rewrite Hlog.
Qed.

(** X9.  When the guarded refresh path fails and [onError] returns nothing,
    the handler goes on as if no [onError] were there: the propagator runs
    on the heap [onError] left, then forwarding. *)
Theorem X9_onError_returning_nothing_falls_through
    (codec : CookieCodec) (options : GetMiddlewareOptions)
    (middlewareFn : option NextMiddleware) (req : NextRequest)
    (event : NextFetchEvent) (h h1 h3 : Heap) (s2 : State) (e : Thrown)
    (f : NextRequest -> NextResponse -> Thrown -> Callback (option NextResponse)) :
  let res := passThrough h in
  shouldRefresh options req (started h) = (Return true, h1) ->
  guardedRefresh options req res {| heap := h1; calls := [CallShouldRefresh req] |}
  = (Raise e, s2) ->
  onError options = Some f ->
  f req res e (heap s2) = (Return None, h3) ->
  handle options middlewareFn req event h
  = forward middlewareFn req res event
      {| heap := applyCookiesOnNextResponse req res h3;
         calls := (calls s2 ++ [CallOnError req res e]) ++ [CallPropagate req res] |}.
Proof.
  intros res Hdecide Hfail Hsupplied Hnothing.
  unfold handle, getMiddleware, refreshStep, try_catch, bind, invoke, ret.
  rewrite newResponse_eq. cbn [heap calls]. fold res.
  rewrite Hdecide. cbn [app]. rewrite Hfail.
  unfold callOnError, invoke. rewrite Hsupplied, Hnothing.
  unfold propagate. reflexivity.
Qed.

(** X10.  The successful refresh: [shouldRefresh] true, the fetch resolved
    and [onSuccess] returned.  [onError] is not called, and the propagator
    runs after [onSuccess], on the heap [onSuccess] left, before forwarding. *)
Theorem X10_successful_refresh_then_propagate_then_forward
    (codec : CookieCodec) (options : GetMiddlewareOptions)
    (middlewareFn : option NextMiddleware) (req : NextRequest)
    (event : NextFetchEvent) (h h1 h2 h3 : Heap) (tp : TokenPair) :
  let res := passThrough h in
  let run := handle options middlewareFn req event h in
  shouldRefresh options req (started h) = (Return true, h1) ->
  fetchTokenPair options req h1 = (Return tp, h2) ->
  onSuccess options res tp h2 = (Return tt, h3) ->
  run = forward middlewareFn req res event
          {| heap := applyCookiesOnNextResponse req res h3;
             calls := [CallShouldRefresh req; CallFetchTokenPair req;
                       CallOnSuccess res tp; CallPropagate req res] |} /\
  calls (snd run)
  = [CallShouldRefresh req; CallFetchTokenPair req; CallOnSuccess res tp;
     CallPropagate req res]
    ++ match middlewareFn with
       | Some _ => [CallNext req res event]
       | None => []
       end.
Proof.
  intros res run Hdecide Hfetch Hsuccess. subst run.
  assert (Hrun : handle options middlewareFn req event h
                 = forward middlewareFn req res event
                     {| heap := applyCookiesOnNextResponse req res h3;
                        calls := [CallShouldRefresh req; CallFetchTokenPair req;
                                  CallOnSuccess res tp; CallPropagate req res] |}).
  { subst res. step_handler. rewrite Hdecide. cbn. rewrite Hfetch. cbn.
    rewrite Hsuccess. reflexivity. }
  rewrite Hrun. split; [reflexivity|]. now rewrite forward_log.
Qed.

(** X11.  What [onSuccess] did to the response is what the caller gets when
    no next-stage handler is given: the handler returns the pass-through
    response, its [Set-Cookie] lines are those [onSuccess] left, and the
    cookies they set are on it as the request cookie line for the stages
    downstream. *)
Theorem X11_cookies_of_onSuccess_reach_the_returned_response
    (codec : CookieCodec) (options : GetMiddlewareOptions) (req : NextRequest)
    (event : NextFetchEvent) (h h1 h2 h3 : Heap) (tp : TokenPair) :
  let res := passThrough h in
  let run := handle options None req event h in
  shouldRefresh options req (started h) = (Return true, h1) ->
  fetchTokenPair options req h1 = (Return tp, h2) ->
  onSuccess options res tp h2 = (Return tt, h3) ->
  length h < length h3 ->
  ResponseCookies_getAll (deref h3 (res_headers res)) <> [] ->
  fst run = Return res /\
  Headers.values (deref (heap (snd run)) (res_headers res)) "set-cookie"
  = Headers.values (deref h3 (res_headers res)) "set-cookie" /\
  Headers.get (deref (heap (snd run)) (res_headers res)) "x-middleware-request-cookie"
  = Some (cookie_line (merged (ResponseCookies_getAll (deref h3 (res_headers res)))
                              (jar_parsed (incomingJar req h3)))).
Proof.
  intros res run Hdecide Hfetch Hsuccess Hlen Hcookies. subst run.
  assert (Hrun : handle options None req event h
                 = (Return res,
                    {| heap := applyCookiesOnNextResponse req res h3;
                       calls := [CallShouldRefresh req; CallFetchTokenPair req;
                                 CallOnSuccess res tp; CallPropagate req res] |})).
  { subst res. step_handler. rewrite Hdecide. cbn. rewrite Hfetch. cbn.
    rewrite Hsuccess. reflexivity. }
  rewrite Hrun. cbn [fst snd heap].
  assert (Hres : res_headers res < length h3) by exact Hlen.
  split; [reflexivity|]. split.
  - rewrite response_after by exact Hres. now apply non_routing_header_kept.
  - pose proof (cookie_line_reaches_response codec req res h3 Hres Hcookies) as H.
    rewrite (mergeCookies_eq req res h3) in H. exact H.
Qed.

(** X12.  On every path that reaches line 76 the handler's outcome is that of
    forwarding: the pass-through response without a next-stage handler, and
    with one the response it returns or the exception it throws. *)
Theorem X12_outcome_is_that_of_the_next_stage
    (codec : CookieCodec) (options : GetMiddlewareOptions) (req : NextRequest)
    (event : NextFetchEvent) (h : Heap) (sp : State) :
  let res := passThrough h in
  untilForward options req {| heap := h; calls := [] |} = (Return None, sp) ->
  handle options None req event h = (Return res, sp) /\
  (forall (f : NextMiddleware) r h',
      f req res event (heap sp) = (Return (Some r), h') ->
      handle options (Some f) req event h
      = (Return r, {| heap := h'; calls := calls sp ++ [CallNext req res event] |})) /\
  (forall (f : NextMiddleware) e h',
      f req res event (heap sp) = (Raise e, h') ->
      handle options (Some f) req event h
      = (Raise e, {| heap := h'; calls := calls sp ++ [CallNext req res event] |})).
Proof.
  intros res Hreach. unfold handle. split; [|split].
  - rewrite getMiddleware_split. unfold bind at 1. rewrite Hreach. reflexivity.
  - intros f r h' Hf. rewrite getMiddleware_split. unfold bind at 1. rewrite Hreach.
    cbn [heap]. unfold forward, bind, invoke, ret. fold res. now rewrite Hf.
  - intros f e h' Hf. rewrite getMiddleware_split. unfold bind at 1. rewrite Hreach.
    cbn [heap]. unfold forward, bind, invoke, ret. fold res. now rewrite Hf.
Qed.



Lemma set_keeps_names (h : Headers.t) (k v n : string) :
  Headers.values h n <> [] -> Headers.values (Headers.set h k v) n <> [].
Proof.
  intros Hn. destruct (String.eqb_spec n k) as [->|Hne].
  - rewrite HeadersFacts.values_set_eq. discriminate.
  - now rewrite HeadersFacts.values_set_ne.
Qed.

Lemma set_each_keeps_names (f : string -> option string)
    (es : list (string * string)) (acc : Headers.t) (n : string) :
  Headers.values acc n <> [] -> Headers.values (set_each f es acc) n <> [].
Proof.
  revert acc. unfold set_each.
  induction es as [|[k v] rest IH]; intros acc Hn; simpl; [exact Hn|].
  apply IH. destruct (f k) as [m|]; [now apply set_keeps_names|exact Hn].
Qed.

(** X16.  The propagator removes no header from the response: a name that
    has a value before the call has one after it.  Routing headers of an
    earlier call stay, also those of request headers that are gone. *)
Theorem X16_propagator_removes_no_header
    (codec : CookieCodec) (req : NextRequest) (res : NextResponse) (h : Heap)
    (n : string) :
  res_headers res < length h ->
  Headers.get (deref h (res_headers res)) n <> None ->
  Headers.get (deref (applyCookiesOnNextResponse req res h) (res_headers res)) n
  <> None.
Proof.
  intros Hres Hn. rewrite response_after by exact Hres.
  assert (Hvalues : Headers.values (deref h (res_headers res)) n <> []).
  { intros E. apply Hn. unfold Headers.get. now rewrite E. }
  pose proof (set_each_keeps_names routing_only
                (Headers.entries (routing_of (derivedHeaders req res h)))
                (deref h (res_headers res)) n Hvalues) as Hafter.
  unfold Headers.get.
  destruct (Headers.values (set_each routing_only _ _) n); [congruence|discriminate].
Qed.

(** * The further properties on concrete requests *)

Module MoreChecks.
Import PlainCodec Demo.

Lemma X1_witness :
  Headers.get (deref (applyCookiesOnNextResponse req res heapAB) 1) override_headers
  = Some "cookie,host".
Proof.
  exact (X1_propagator_always_sets_override_marker codec req res heapAB
           ltac:(simpl; lia)).
Defined.

(** The request comes with [x=9; a=0], the response sets [a=1]: downstream
    the request reads [x=9; a=1]. *)
Lemma X2_witness :
  Headers.get (deref (applyCookiesOnNextResponse req res heapCookie) 1)
              "x-middleware-request-cookie"
  = Some "x=9; a=1".
Proof.
  exact (X2_response_carries_merged_cookie_line codec req res heapCookie
           ltac:(simpl; lia) ltac:(vm_compute; discriminate)).
Defined.

Lemma X3_witness :
  Headers.get (deref (applyCookiesOnNextResponse req res heapAB) 1)
              "x-middleware-request-host"
  = Some "example.com".
Proof.
  exact (X3_request_headers_forwarded_under_prefix codec req res heapAB
           "host" "example.com" ltac:(simpl; lia)
           ltac:(discriminate) ltac:(discriminate) eq_refl).
Defined.

Lemma X4_witness :
  RequestCookies_get (fst (mergeCookies req res heapCookie)) "x" = Some "9".
Proof.
  rewrite (proj2 (X4_derived_jar_is_request_jar_overlaid codec req res heapCookie "x")).
  - reflexivity.
  - vm_compute. intros [E|[]]. discriminate E.
Defined.

Lemma X6_witness :
  deref (applyCookiesOnNextResponse req res
           (applyCookiesOnNextResponse req res heapCookie)) 1
  = deref (applyCookiesOnNextResponse req res heapCookie) 1.
Proof.
  exact (proj2 (X6_propagator_is_idempotent_on_the_response codec req res heapCookie
                  ltac:(simpl; lia) ltac:(simpl; lia) ltac:(discriminate))).
Defined.

Lemma X7_witness :
  handle undecided (Some returnsRes) req event heap0
  = (Raise (JsError "decide"),
     {| heap := started heap0; calls := [CallShouldRefresh req] |}).
Proof.
  exact (X7_shouldRefresh_exception_propagates codec undecided (Some returnsRes)
           req event heap0 (started heap0) (JsError "decide") eq_refl).
Defined.

Lemma X8_witness :
  fst (handle failingHard (Some returnsRes) req event heap0)
  = Raise (JsError "handler") /\
  List.filter is_pipeline_call
    (calls (snd (handle failingHard (Some returnsRes) req event heap0))) = [].
Proof.
  destruct (X8_onError_exception_propagates codec failingHard (Some returnsRes)
              req event heap0 (started heap0) (started heap0)
              {| heap := started heap0;
                 calls := [CallShouldRefresh req; CallFetchTokenPair req] |}
              (JsError "network") (JsError "handler") rethrows
              eq_refl eq_refl eq_refl eq_refl) as [Hrun Hlog].
  split; [rewrite Hrun; reflexivity|exact Hlog].
Defined.

Lemma X9_witness :
  calls (snd (handle logging None req event heap0))
  = [CallShouldRefresh req; CallFetchTokenPair req;
     CallOnError req (passThrough heap0) (JsError "network");
     CallPropagate req (passThrough heap0)].
Proof.
  rewrite (X9_onError_returning_nothing_falls_through codec logging None req event
             heap0 (started heap0) (started heap0)
             {| heap := started heap0;
                calls := [CallShouldRefresh req; CallFetchTokenPair req] |}
             (JsError "network") logsOnly eq_refl eq_refl eq_refl eq_refl).
  reflexivity.
Defined.

Lemma X10_witness :
  calls (snd (handle readme (Some returnsRes) req event heap0))
  = [CallShouldRefresh req; CallFetchTokenPair req;
     CallOnSuccess (passThrough heap0) tokens;
     CallPropagate req (passThrough heap0);
     CallNext req (passThrough heap0) event].
Proof.
  exact (proj2 (X10_successful_refresh_then_propagate_then_forward codec readme
                  (Some returnsRes) req event heap0 (started heap0) (started heap0)
                  (snd (setTokens (passThrough heap0) tokens (started heap0)))
                  tokens eq_refl eq_refl eq_refl)).
Defined.

(** The configuration [readme]: the two token cookies are on the returned
    response, as [Set-Cookie] lines and as the request cookie line. *)
Lemma X11_witness :
  fst (handle readme None req event heap0) = Return (passThrough heap0) /\
  Headers.values (deref (heap (snd (handle readme None req event heap0))) 1) "set-cookie"
  = ["access-token=AT2; Path=/; Max-Age=604800";
     "refresh-token=RT2; Path=/; Max-Age=604800"] /\
  Headers.get (deref (heap (snd (handle readme None req event heap0))) 1)
              "x-middleware-request-cookie"
  = Some "access-token=AT2; refresh-token=RT2".
Proof.
  exact (X11_cookies_of_onSuccess_reach_the_returned_response codec readme req event
           heap0 (started heap0) (started heap0)
           (snd (setTokens (passThrough heap0) tokens (started heap0)))
           tokens eq_refl eq_refl eq_refl ltac:(simpl; lia)
           ltac:(vm_compute; discriminate)).
Defined.

Lemma X12_witness :
  fst (handle failingFetch (Some nextThrows) req event heap0) = Raise (JsError "next").
Proof.
  destruct (X12_outcome_is_that_of_the_next_stage codec failingFetch req event heap0
              (snd (untilForward failingFetch req {| heap := heap0; calls := [] |}))
              eq_refl) as (_ & _ & Hthrows).
  rewrite (Hthrows nextThrows (JsError "next") _ eq_refl). reflexivity.
Defined.

Lemma X16_witness :
  Headers.get (deref (applyCookiesOnNextResponse req res heapAB) 1) "set-cookie"
  <> None.
Proof.
  exact (X16_propagator_removes_no_header codec req res heapAB "set-cookie"
           ltac:(simpl; lia) ltac:(discriminate)).
Defined.

End MoreChecks.
